(** * JS-balls-SVG: the simulation engine of [js_balls.js]

    A shallow embedding of the playground / circle simulation and the
    properties of its per-tick pipeline.

    Numbers.  JavaScript numbers are idealised as real numbers ([R]):
    [Math.sqrt] is [sqrt], [Math.abs] is [Rabs], [Math.max] is [Rmax],
    [Math.pow(d, 2)] is [d ^ 2] and [Math.pow(b, 0.5)] is [sqrt b].
    Rounding, infinities and NaN are outside the model, and with them the
    results JavaScript gives for a division by zero or the root of a
    negative number.  [strength] is an integer ([Z]): the program only
    ever produces it from [getClickType] and decrements it by one.

    Environment.  [Math.random()] is an explicit argument (a draw [u] with
    [0 <= u < 1]); [document.body.clientWidth] / [clientHeight] are the
    arguments [W] / [H] of the operations that read them; the calls into
    the DOM and the audio elements are recorded in an effect log.

    Object identity.  Every slot of the array [circles] is filled by one
    [push] of a freshly constructed object and is never overwritten except
    by [delete], so two slots hold the same object exactly when their
    indices are equal: [circles[c1] !== circles[c2]] is the test
    [c1 <> c2] on indices. *)

From Stdlib Require Import Reals Lra ZArith Ascii String.
From stdpp Require Import base decidable list.

Local Open Scope Z_scope.
Local Open Scope nat_scope.

(** ** Constants *)

Definition TIMER_INTERVAL_MS : R := 1.
Definition MAX_VELOCITY : R := 3.
Definition INITIAL_RADIUS : R := 10.
Definition INITIAL_STRENGTH : Z := 1.

(** ** Comparisons of numbers, as booleans *)

Definition Rltb (a b : R) : bool := if Rlt_dec a b then true else false.
Definition Rleb (a b : R) : bool := if Rle_dec a b then true else false.

(** ** Data model *)

(** [this.info.velocity = { x: .., y: .. }] *)
Record Velocity := mkVelocity { x : R; y : R }.

(** [this.info = { cx: cx, cy: cy, r: radius }], plus [velocity] set by
    [initialize]. *)
Record Info := mkInfo { cx : R; cy : R; r : R; velocity : Velocity }.

(** Calls into the document: the SVG children and the two audio clips.
    The [setAttribute] calls (pure rendering of the current geometry and
    colour) are not recorded. *)
Inductive Effect :=
| AppendChild (id : nat)
| RemoveChild (id : nat)
| Play (clip : string).

(** ** Circle *)

(** Field updates of the nested [info] object. *)
Definition set_cx (v : R) (i : Info) : Info := mkInfo v (cy i) (r i) (velocity i).
Definition set_cy (v : R) (i : Info) : Info := mkInfo (cx i) v (r i) (velocity i).
Definition set_r (v : R) (i : Info) : Info := mkInfo (cx i) (cy i) v (velocity i).
Definition set_velocity (v : Velocity) (i : Info) : Info := mkInfo (cx i) (cy i) (r i) v.
Definition set_x (v : R) (w : Velocity) : Velocity := mkVelocity v (y w).
Definition set_y (v : R) (w : Velocity) : Velocity := mkVelocity (x w) v.

Module Circle.
Local Open Scope R_scope.

(** A [Circle] object: the closure variable [html_id] and the properties
    [collided], [strength], [info]. *)
Record t := mk {
  html_id : nat;
  collided : bool;
  strength : Z;
  info : Info
}.

Definition set_collided (b : bool) (c : t) : t :=
  mk (html_id c) b (strength c) (info c).
Definition set_strength (s : Z) (c : t) : t :=
  mk (html_id c) (collided c) s (info c).
Definition set_info (i : Info) (c : t) : t :=
  mk (html_id c) (collided c) (strength c) i.

(** [randomNumberBetween(min, max)], with the draw [u] of [Math.random()]. *)
Definition randomNumberBetween (min max u : R) : R := u * (max - min) + min.

(** [Math.pow(b, 0.5)] *)
Definition pow_half (b : R) : R := sqrt b.

(** [new Circle(cx, cy, radius, strength, html_id)] followed by
    [this.initialize()]; [u1], [u2] are the two draws of [Math.random()]. *)
Definition initialize (u1 u2 : R) (c : t) : t * list Effect :=
  let v := mkVelocity
             (randomNumberBetween (- MAX_VELOCITY) MAX_VELOCITY u1 / pow_half (r (info c)))
             (randomNumberBetween (- MAX_VELOCITY) MAX_VELOCITY u2 / pow_half (r (info c))) in
  (set_info (set_velocity v (info c)) c, [AppendChild (html_id c)]).

Definition new (px py radius : R) (strength : Z) (html_id : nat) (u1 u2 : R)
  : t * list Effect :=
  initialize u1 u2
    (mk html_id false strength (mkInfo px py radius (mkVelocity 0 0))).

(** [this.remove()] *)
Definition remove (c : t) : list Effect := [RemoveChild (html_id c)].

(** [this.checkForWallCollision()]; [W], [H] are
    [document.body.clientWidth] and [document.body.clientHeight]. *)
Definition checkForWallCollision (W H : R) (c : t) : t :=
  let i := info c in
  let i :=
    if Rltb W (cx i + r i) then
      set_velocity (set_x (- Rabs (x (velocity i))) (velocity i)) i
    else if Rltb (cx i - r i) 0 then
      set_velocity (set_x (Rabs (x (velocity i))) (velocity i)) i
    else i in
  let i :=
    if Rltb H (cy i + r i) then
      set_velocity (set_y (- Rabs (y (velocity i))) (velocity i)) i
    else if Rltb (cy i - r i) 0 then
      set_velocity (set_y (Rabs (y (velocity i))) (velocity i)) i
    else i in
  set_info i c.

(** [this.update(time)] *)
Definition update (time : R) (c : t) : t * list Effect :=
  let i := info c in
  let i := set_cx (cx i + x (velocity i) * time) i in
  let i := set_cy (cy i + y (velocity i) * time) i in
  let c := set_info i c in
  if collided c then
    if (0 <? strength c)%Z then
      (set_collided false (set_strength (strength c - 1)%Z c), [Play "zee-ow"%string])
    else
      (set_info (set_r (Rmax (r (info c) - 1) 0) (info c)) c, [])
  else (c, []).

End Circle.

(** ** PlayGround *)

Module PlayGround.
Local Open Scope R_scope.

(** The closure state of [PlayGround]: [counter], the array [circles]
    (a deleted slot is a hole, [None]; the length never shrinks) and the
    log of the effects performed so far, oldest first. *)
Record t := mk {
  counter : nat;
  circles : list (option Circle.t);
  effects : list Effect
}.

Definition set_circles (cs : list (option Circle.t)) (s : t) : t :=
  mk (counter s) cs (effects s).
Definition emit (es : list Effect) (s : t) : t :=
  mk (counter s) (circles s) (effects s ++ es).

(** [circles[k]] as a truthy value: the object in slot [k], if any. *)
Definition get (s : t) (k : nat) : option Circle.t :=
  match circles s !! k with
  | Some (Some c) => Some c
  | _ => None
  end.

(** Assignment through the reference [circles[k]]. *)
Definition put (k : nat) (c : Circle.t) (s : t) : t :=
  set_circles (<[k := Some c]> (circles s)) s.

(** [for (k in circles) body]: the keys of the array in ascending order.
    Every loop body of the program starts with the test [circles[k]], so
    visiting a hole does nothing; no body changes the length. *)
Definition for_in (s : t) (body : nat -> t -> t) : t :=
  foldl (fun s k => body k s) s (seq 0 (length (circles s))).

(** [this.getDistance(c1, c2)] *)
Definition getDistance (c1 c2 : Circle.t) : R :=
  let xDelta := cx (Circle.info c1) - cx (Circle.info c2) in
  let yDelta := cy (Circle.info c1) - cy (Circle.info c2) in
  sqrt (xDelta ^ 2 + yDelta ^ 2).

(** [circles[k].collided = true] *)
Definition mark (k : nat) (s : t) : t :=
  match get s k with
  | Some c => put k (Circle.set_collided true c) s
  | None => s
  end.

(** The body of the inner loop of [checkForBallCollisions]. *)
Definition comparePair (c1 c2 : nat) (s : t) : t :=
  match get s c1, get s c2 with
  | Some a, Some b =>
      if negb (c1 =? c2)%nat then
        let distance := getDistance a b in
        if Rltb distance (r (Circle.info a) + r (Circle.info b)) then
          mark c2 (mark c1 s)
        else s
      else s
  | _, _ => s
  end.

(** [this.checkForBallCollisions()] *)
Definition checkForBallCollisions (s : t) : t :=
  for_in s (fun c1 s =>
    match get s c1 with
    | Some _ => for_in s (fun c2 s => comparePair c1 c2 s)
    | None => s
    end).

(** [this.handleDeletions()] *)
Definition handleDeletions (s : t) : t :=
  for_in s (fun c1 s =>
    match get s c1 with
    | Some c =>
        if Circle.collided c then
          if Rleb (r (Circle.info c)) 0 then
            emit (Circle.remove c ++ [Play "trash"%string])
                 (set_circles (<[c1 := None]> (circles s)) s)
          else s
        else s
    | None => s
    end).

(** [this.checkForWallCollisions()] *)
Definition checkForWallCollisions (W H : R) (s : t) : t :=
  for_in s (fun circle s =>
    match get s circle with
    | Some c => put circle (Circle.checkForWallCollision W H c) s
    | None => s
    end).

(** [this.checkForCollisions()] *)
Definition checkForCollisions (W H : R) (s : t) : t :=
  checkForWallCollisions W H (handleDeletions (checkForBallCollisions s)).

(** [this.updatePositions()] *)
Definition updatePositions (s : t) : t :=
  for_in s (fun circle s =>
    match get s circle with
    | Some c =>
        let (c', es) := Circle.update 1 c in
        emit es (put circle c' s)
    | None => s
    end).

(** [this.createNewCircle(x, y, rad, strength)] *)
Definition createNewCircle (px py rad : R) (strength : Z) (u1 u2 : R) (s : t) : t :=
  let (new_circle, es) := Circle.new px py rad strength (counter s) u1 u2 in
  mk (S (counter s)) (circles s ++ [Some new_circle]) (effects s ++ es).

(** [this.loop()], one timer tick. *)
Definition loop (W H : R) (s : t) : t :=
  updatePositions (checkForCollisions W H s).

(** [new PlayGround()]: the empty closure state followed by the creation
    of the first circle in the middle of the document. *)
Definition new (W H : R) (u1 u2 : R) : t :=
  createNewCircle (W / 2) (H / 2) INITIAL_RADIUS INITIAL_STRENGTH u1 u2
    (mk 0 [] []).

End PlayGround.

(** ** Runs: spawns and timer ticks, in the order the browser delivers them *)

Inductive Op :=
| Spawn (px py rad : R) (strength : Z) (u1 u2 : R)
| Tick (W H : R).

Definition step (s : PlayGround.t) (o : Op) : PlayGround.t :=
  match o with
  | Spawn px py rad strength u1 u2 =>
      PlayGround.createNewCircle px py rad strength u1 u2 s
  | Tick W H => PlayGround.loop W H s
  end.

Definition run (s : PlayGround.t) (ops : list Op) : PlayGround.t :=
  foldl step s ops.

(** ** The timer *)

(** [window.performance], as far as the program looks at it: for a
    property name, the reading its function returns now, or [None] when
    the property is undefined. *)
Definition Performance := string -> option R.

(** What the program reads of [window]: [performance] ([None] when
    undefined) and the reading of [new Date().getTime()]. *)
Record Window := mkWindow {
  performance : option Performance;
  date_getTime : R
}.

Module HighResTimer.

Record t := mk {
  hrNativeSppt : bool;
  hrSupport : bool;
  hrSpptPrefix : option string   (* [None] is [null] *)
}.

Definition browserPrefixes : list string :=
  ["webkit"; "moz"; "ms"; "o"]%string.

(** The [for] loop of the constructor: the first prefix, in the order of
    the array, whose [prefix + "Now"] is defined. *)
Fixpoint scan (perf : Performance) (prefixes : list string) : option string :=
  match prefixes with
  | [] => None
  | p :: rest =>
      match perf (p ++ "Now")%string with
      | Some _ => Some p
      | None => scan perf rest
      end
  end.

(** [new HighResTimer()] *)
Definition new (w : Window) : t :=
  match performance w with
  | Some perf =>
      match perf "now"%string with
      | Some _ => mk true false None
      | None =>
          match scan perf browserPrefixes with
          | Some p => mk false true (Some p)
          | None => mk false false None
          end
      end
  | None => mk false false None
  end.

(** [this.hrSpptPrefix + "Now"]; [null] concatenates as the text "null". *)
Definition prefixedNow (self : t) : string :=
  (match hrSpptPrefix self with Some p => p | None => "null" end ++ "Now")%string.

(** [this.hrGetTime()]; [None] is the exception of reading a property of
    an undefined [performance] or of calling an undefined property. *)
Definition hrGetTime (self : t) (w : Window) : option R :=
  if hrNativeSppt self then
    match performance w with Some perf => perf "now"%string | None => None end
  else if hrSupport self then
    match performance w with Some perf => perf (prefixedNow self) | None => None end
  else Some (date_getTime w).

End HighResTimer.

(** ** The mouse handlers *)

Definition DURATION_RADIUS_SCALING_FACTOR : R := 55 / 100.

(** The part of a mouse event the program reads. *)
Module MouseEvent.
Record t := mk {
  button : Z;
  altKey : bool;
  ctrlKey : bool;
  shiftKey : bool;
  x : R;
  y : R
}.
End MouseEvent.

(** [getClickType(evt)]; a boolean operand of [<<] or [+] counts as 0 or 1. *)
Definition getClickType (evt : MouseEvent.t) : Z :=
  (Z.shiftl (Z.land (MouseEvent.button evt) 1) 3
   + Z.shiftl (Z.b2z (MouseEvent.altKey evt)) 2
   + Z.shiftl (Z.b2z (MouseEvent.ctrlKey evt)) 1
   + Z.b2z (MouseEvent.shiftKey evt))%Z.

(** [Math.pow(d, DURATION_RADIUS_SCALING_FACTOR)] for the positive
    exponent 0.55: a power of a positive base, 0 for the base 0, and
    [None] for a negative base, where JavaScript gives NaN. *)
Definition pow_duration (d : R) : option R :=
  if Rlt_dec 0 d then Some (Rpower d DURATION_RADIUS_SCALING_FACTOR)
  else if Rlt_dec d 0 then None
  else Some 0%R.

(** The globals of the script: the two time stamps ([None] is
    [undefined]) and [playground]. *)
Module Page.

Record t := mk {
  hrBeginTimeStamp : option R;
  hrEndTimeStamp : option R;
  playground : PlayGround.t
}.

(** [document.onmousedown]; [now] is the reading [hrTimer.hrGetTime()]
    returns. *)
Definition onmousedown (now : R) (p : t) : t :=
  mk (Some now) (hrEndTimeStamp p) (playground p).

(** [playground.createNewCircle(x, y, NaN, strength)]: the counter goes
    up, the array grows by one slot and the svg element of the new circle
    is appended, as for every circle.  A radius that is not a number is
    outside the number model, and so is the circle: every comparison on
    it is false, so no pass ever flags it, flags another circle because
    of it, turns it, shrinks it or removes it.  Its slot is recorded as
    one that the passes skip. *)
Definition createNaNCircle (s : PlayGround.t) : PlayGround.t :=
  PlayGround.mk (S (PlayGround.counter s))
                (PlayGround.circles s ++ [None])
                (PlayGround.effects s ++ [AppendChild (PlayGround.counter s)]).

(** [document.onmouseup]; [now] is the reading of the timer, [u1], [u2]
    the draws of the new circle.  The radius is not a number when no
    [mousedown] came before or the timer went backwards. *)
Definition onmouseup (now : R) (evt : MouseEvent.t) (u1 u2 : R) (p : t) : t :=
  let radius :=
    match hrBeginTimeStamp p with
    | Some b => pow_duration (now - b)
    | None => None
    end in
  let strength := getClickType evt in
  mk (hrBeginTimeStamp p) (Some now)
     match radius with
     | Some radius =>
         PlayGround.createNewCircle (MouseEvent.x evt) (MouseEvent.y evt)
           radius strength u1 u2 (playground p)
     | None => createNaNCircle (playground p)
     end.

End Page.

(** ** The colour of a circle *)

(** One digit of [Number.prototype.toString(16)]. *)
Definition hex_digit (d : N) : Ascii.ascii :=
  match d with
  | 0%N => "0" | 1%N => "1" | 2%N => "2" | 3%N => "3"
  | 4%N => "4" | 5%N => "5" | 6%N => "6" | 7%N => "7"
  | 8%N => "8" | 9%N => "9" | 10%N => "a" | 11%N => "b"
  | 12%N => "c" | 13%N => "d" | 14%N => "e" | _ => "f"
  end%char.

(** The digits of [n], most significant first, in front of [acc]; [fuel]
    bounds the number of digits. *)
Fixpoint hex_digits (fuel : nat) (n : N) (acc : string) : string :=
  match fuel with
  | O => acc
  | S fuel =>
      let acc := String (hex_digit (n mod 16)) acc in
      if (n / 16 =? 0)%N then acc else hex_digits fuel (n / 16) acc
  end.

(** [n.toString(16)] for an integer [n]. *)
Definition toString16 (n : Z) : string :=
  let digits m := hex_digits (S (N.to_nat (N.log2 m))) m EmptyString in
  if (n <? 0)%Z then ("-" ++ digits (Z.abs_N n))%string else digits (Z.to_N n).

(** The style that [initialize] and [update] give the svg circle:
    ["fill: #0" + strength.toString(16) + strength.toString(16)]. *)
Definition fill_style (strength : Z) : string :=
  ("fill: #0" ++ toString16 strength ++ toString16 strength)%string.

(** ** Vocabulary of the properties *)

Section Vocabulary.
Import PlayGround.
Local Open Scope R_scope.

(** A loop body that touches only the visited slot: [G] gives the slot
    afterwards and the effects performed. *)
Definition visit (G : Circle.t -> option Circle.t * list Effect)
    (k : nat) (s : t) : t :=
  match get s k with
  | Some c => emit (G c).2 (set_circles (<[k := (G c).1]> (circles s)) s)
  | None => s
  end.

(** The slot a visit leaves behind; a hole stays a hole. *)
Definition slot_after (G : Circle.t -> option Circle.t * list Effect)
    (oc : option Circle.t) : option Circle.t :=
  match oc with Some c => (G c).1 | None => None end.

(** The effects of the visit of a slot; none for a hole. *)
Definition slot_effects (G : Circle.t -> option Circle.t * list Effect)
    (oc : option Circle.t) : list Effect :=
  match oc with Some c => (G c).2 | None => [] end.

(** One visit of [handleDeletions]. *)
Definition reap_slot (c : Circle.t) : option Circle.t * list Effect :=
  if Circle.collided c && Rleb (r (Circle.info c)) 0
  then (None, Circle.remove c ++ [Play "trash"%string])
  else (Some c, []).

(** One visit of [checkForWallCollisions]. *)
Definition wall_slot (W H : R) (c : Circle.t) : option Circle.t * list Effect :=
  (Some (Circle.checkForWallCollision W H c), []).

(** One visit of [updatePositions]. *)
Definition update_slot (c : Circle.t) : option Circle.t * list Effect :=
  (Some (Circle.update 1 c).1, (Circle.update 1 c).2).

(** Setting the flag of an object when [b] holds. *)
Definition flag_if (b : bool) (c : Circle.t) : Circle.t :=
  if b then Circle.set_collided true c else c.

(** The test of the inner loop for the pair of slots [c1], [c2]. *)
Definition hits (s : t) (c1 c2 : nat) : bool :=
  match get s c1, get s c2 with
  | Some a, Some b =>
      negb (c1 =? c2) &&
      Rltb (getDistance a b) (r (Circle.info a) + r (Circle.info b))
  | _, _ => false
  end.

(** Slot [j] is one of the two slots of a pair that passes the test. *)
Definition touch (s : t) (c1 c2 j : nat) : bool :=
  ((j =? c1) || (j =? c2)) && hits s c1 c2.

(** Two states that differ at most in the flags of their objects. *)
Definition same_geo (s s' : t) : Prop :=
  forall j, Circle.set_collided false <$> get s j =
            Circle.set_collided false <$> get s' j.

(** The flag test of slot [j] over all pairs of keys. *)
Definition flagged (s : t) (j : nat) : bool :=
  existsb (fun c1 => existsb (fun c2 => touch s c1 c2 j)
                             (seq 0 (length (circles s))))
          (seq 0 (length (circles s))).

(** The pass leaves the counter, the effect log and the array length alone. *)
Definition same_frame (s s' : t) : Prop :=
  counter s' = counter s /\ effects s' = effects s /\
  length (circles s') = length (circles s).

(** A body of radius 60 (a press of about 1.7 s) in the middle of a
    document 100 wide, moving to the right. *)
Definition wide_circle : Circle.t :=
  Circle.mk 0 false 1 (mkInfo 50 500 60 (mkVelocity 1 0)).

(** The body is in the decay branch of [update]: flagged, no strength left. *)
Definition decays (c : Circle.t) : bool :=
  Circle.collided c && negb (0 <? Circle.strength c)%Z.

(** The body is in the damage branch of [update]: flagged, strength left. *)
Definition damaged (c : Circle.t) : bool :=
  Circle.collided c && (0 <? Circle.strength c)%Z.

(** What a tick does to a body once its flag of this tick is known. *)
Definition tick_slot (W H : R) (c : Circle.t) : option Circle.t :=
  if Circle.collided c && Rleb (r (Circle.info c)) 0 then None
  else Some (Circle.update 1 (Circle.checkForWallCollision W H c)).1.

(** The callers' side of [createNewCircle]: a positive radius ... *)
Definition spawn_radius_positive (o : Op) : Prop :=
  match o with
  | Spawn _ _ rad _ _ _ => 0 < rad
  | Tick _ _ => True
  end.

(** ... and a strength that is not negative. *)
Definition spawn_strength_nonneg (o : Op) : Prop :=
  match o with
  | Spawn _ _ _ strength _ _ => (0 <= strength)%Z
  | Tick _ _ => True
  end.

(** A tick in the history in which the update of slot [i] took the decay
    branch: no strength left, and the radius went down. *)
Definition decay_tick (init : t) (ops : list Op) (i : nat) : Prop :=
  exists ops1 W H ops2 c1 c2,
    ops = ops1 ++ Tick W H :: ops2 /\
    get (run init ops1) i = Some c1 /\
    get (loop W H (run init ops1)) i = Some c2 /\
    (Circle.strength c1 <= 0)%Z /\
    r (Circle.info c2) = Rmax (r (Circle.info c1) - 1) 0 /\
    r (Circle.info c2) < r (Circle.info c1).

(** A body between two ticks: of positive radius, or shrunk to radius 0
    with its flag still set and no strength left. *)
Definition resting (c : Circle.t) : Prop :=
  0 < r (Circle.info c) \/
  (r (Circle.info c) = 0 /\ Circle.collided c = true /\
   (Circle.strength c <= 0)%Z).

(** A body whose velocity is zero: both draws of [Math.random()] were
    [1/2]. *)
Definition at_rest (id : nat) (fl : bool) (st : Z) (px py rad : R) : Circle.t :=
  Circle.mk id fl st (mkInfo px py rad (mkVelocity 0 0)).

(** The playground of the examples: the first circle in the middle of a
    1000 x 1000 document, a second one of radius 1 and strength 1 spawned
    ten pixels to its right, both at rest. *)
Definition two_bodies : t :=
  run (new 1000 1000 (1 / 2) (1 / 2)) [Spawn 510 500 1 1 (1 / 2) (1 / 2)].

(** The state after the spawn and two ticks. *)
Definition after_two_ticks : t :=
  run (new 1000 1000 (1 / 2) (1 / 2))
      [Spawn 510 500 1 1 (1 / 2) (1 / 2); Tick 1000 1000; Tick 1000 1000].

(** A body that has crossed the right edge of a document of width 100
    while moving to the right. *)
Definition past_right_edge : t :=
  mk 1 [Some (Circle.mk 0 false 1 (mkInfo 95 50 10 (mkVelocity 2 0)))] [].

(** Two readings of [window] in which [performance] has the same defined
    properties. *)
Definition same_shape (w w' : Window) : Prop :=
  match performance w, performance w' with
  | Some perf, Some perf' => forall name, is_Some (perf name) <-> is_Some (perf' name)
  | None, None => True
  | _, _ => False
  end.

(** A browser with the prefixed clocks [mozNow] and [msNow] only. *)
Definition moz_browser (t_moz t_ms t_date : R) : Window :=
  mkWindow
    (Some (fun name =>
             if String.eqb name "mozNow" then Some t_moz
             else if String.eqb name "msNow" then Some t_ms
             else None))
    t_date.

(** A shift-click with the left button at (300, 200). *)
Definition shift_click : MouseEvent.t :=
  MouseEvent.mk 0 false false true 300 200.

(** A page on which no mouse button was pressed yet. *)
Definition fresh_page : Page.t :=
  Page.mk None None (PlayGround.new 1000 1000 (1 / 2) (1 / 2)).

(** The ids of the live circles, in the order of the array. *)
Definition live_ids (cs : list (option Circle.t)) : list nat :=
  omap (fun oc => Circle.html_id <$> oc) cs.

(** The children of the [svg] element as a list of ids, and what the
    document does with an effect: [appendChild] adds at the end;
    [removeChild] of [getElementById(id)] takes the first element of that
    id out and throws ([None]) when there is none; a sound leaves the
    children alone. *)
Fixpoint remove_first (id : nat) (children : list nat) : option (list nat) :=
  match children with
  | [] => None
  | k :: rest =>
      if (k =? id)%nat then Some rest
      else cons k <$> remove_first id rest
  end.

Fixpoint dom_replay (children : list nat) (es : list Effect) : option (list nat) :=
  match es with
  | [] => Some children
  | AppendChild id :: es => dom_replay (children ++ [id]) es
  | RemoveChild id :: es =>
      match remove_first id children with
      | Some children' => dom_replay children' es
      | None => None
      end
  | Play _ :: es => dom_replay children es
  end.

(** The counter is the length of the array and every live circle carries
    the index of its slot as id. *)
Definition ids_ok (s : t) : Prop :=
  counter s = length (circles s) /\
  forall i c, get s i = Some c -> Circle.html_id c = i.

(** The number of spawns, and of ticks, of a run. *)
Fixpoint spawns (ops : list Op) : nat :=
  match ops with
  | [] => 0
  | Spawn _ _ _ _ _ _ :: ops => S (spawns ops)
  | Tick _ _ :: ops => spawns ops
  end.

Fixpoint ticks (ops : list Op) : nat :=
  match ops with
  | [] => 0
  | Tick _ _ :: ops => S (ticks ops)
  | Spawn _ _ _ _ _ _ :: ops => ticks ops
  end.

(** Slot [i] holds the only live circle. *)
Definition alone (s : t) (i : nat) : Prop :=
  forall j, j <> i -> get s j = None.

(** What a run may have done to the circle of a slot that is still there:
    same id, no more strength, no larger radius, the same speed along
    each axis. *)
Definition worn (c c' : Circle.t) : Prop :=
  Circle.html_id c' = Circle.html_id c /\
  (Circle.strength c' <= Circle.strength c)%Z /\
  r (Circle.info c') <= r (Circle.info c) /\
  Rabs (x (velocity (Circle.info c'))) = Rabs (x (velocity (Circle.info c))) /\
  Rabs (y (velocity (Circle.info c'))) = Rabs (y (velocity (Circle.info c))).

(** Counting the elements of a list that pass a test. *)
Fixpoint tally {A} (f : A -> bool) (l : list A) : nat :=
  match l with
  | [] => 0
  | a :: l => (if f a then 1 else 0) + tally f l
  end.

Definition is_play (clip : string) (e : Effect) : bool :=
  match e with Play c => String.eqb c clip | _ => false end.

Definition is_removeChild (e : Effect) : bool :=
  match e with RemoveChild _ => true | _ => false end.

Definition is_appendChild (e : Effect) : bool :=
  match e with AppendChild _ => true | _ => false end.

(** A slot before and after a tick: its circle was removed ... *)
Definition removed (oc oc' : option Circle.t) : bool :=
  match oc, oc' with Some _, None => true | _, _ => false end.

(** ... or is still there with less strength. *)
Definition weakened (oc oc' : option Circle.t) : bool :=
  match oc, oc' with
  | Some c, Some c' => (Circle.strength c' <? Circle.strength c)%Z
  | _, _ => false
  end.

(** Reading a hexadecimal digit back. *)
Definition hex_value (a : Ascii.ascii) : N :=
  (if Ascii.eqb a "0" then 0 else if Ascii.eqb a "1" then 1
   else if Ascii.eqb a "2" then 2 else if Ascii.eqb a "3" then 3
   else if Ascii.eqb a "4" then 4 else if Ascii.eqb a "5" then 5
   else if Ascii.eqb a "6" then 6 else if Ascii.eqb a "7" then 7
   else if Ascii.eqb a "8" then 8 else if Ascii.eqb a "9" then 9
   else if Ascii.eqb a "a" then 10 else if Ascii.eqb a "b" then 11
   else if Ascii.eqb a "c" then 12 else if Ascii.eqb a "d" then 13
   else if Ascii.eqb a "e" then 14 else 15)%N.

End Vocabulary.

(** * Properties *)

(** ** Numbers *)

Lemma Rltb_true a b : Rltb a b = true <-> (a < b)%R.
Proof. unfold Rltb. destruct (Rlt_dec a b); split; intros; try done. Qed.

Lemma Rltb_false a b : Rltb a b = false <-> (b <= a)%R.
Proof. unfold Rltb. destruct (Rlt_dec a b); split; intros; try done; lra. Qed.

Lemma Rleb_true a b : Rleb a b = true <-> (a <= b)%R.
Proof. unfold Rleb. destruct (Rle_dec a b); split; intros; try done. Qed.

Lemma Rleb_false a b : Rleb a b = false <-> (b < a)%R.
Proof. unfold Rleb. destruct (Rle_dec a b); split; intros; try done; lra. Qed.

(** Case analysis on the innermost comparison of the goal. *)
Ltac case_Rltb :=
  repeat (match goal with
          | E : Rltb ?a ?b = _ |- context [Rltb ?a ?b] => rewrite E; cbn
          | |- context [Rltb ?a ?b] =>
              lazymatch a with context [Rltb] => fail | _ => idtac end;
              lazymatch b with context [Rltb] => fail | _ => idtac end;
              let E := fresh "E" in destruct (Rltb a b) eqn:E; cbn
          end).

(** ** Loops that visit every slot once and touch only the visited slot *)

Section Pointwise.
Import PlayGround.

Variable G : Circle.t -> option Circle.t * list Effect.

Lemma foldl_visit n s :
  n <= length (circles s) ->
  foldl (fun s k => visit G k s) s (seq 0 n) =
  mk (counter s)
     ((slot_after G <$> take n (circles s)) ++ drop n (circles s))
     (effects s ++ concat (slot_effects G <$> take n (circles s))).
Proof.
  induction n as [|n IH]; intros Hn.
  - destruct s; simpl. rewrite drop_0. by rewrite app_nil_r.
  - rewrite seq_S, foldl_app. simpl. rewrite IH by lia. clear IH.
    destruct (lookup_lt_is_Some_2 (circles s) n) as [oc Hoc]; [lia|].
    rewrite (take_S_r _ _ _ Hoc), (drop_S _ _ _ Hoc).
    rewrite !fmap_app, concat_app. simpl. rewrite app_nil_r.
    assert (Hlen : length (slot_after G <$> take n (circles s)) = n).
    { rewrite length_fmap, length_take. lia. }
    unfold visit, get. simpl.
    rewrite lookup_app_r by lia. rewrite Hlen, Nat.sub_diag. simpl.
    destruct oc as [c|]; simpl.
    + unfold emit, set_circles. simpl. f_equal.
      * rewrite insert_app_r_alt by lia. rewrite Hlen, Nat.sub_diag. simpl.
        by rewrite <- app_assoc.
      * by rewrite <- app_assoc.
    + f_equal.
      * by rewrite <- app_assoc.
      * by rewrite app_nil_r.
Qed.

Lemma for_in_visit s :
  for_in s (visit G) =
  mk (counter s) (slot_after G <$> circles s)
     (effects s ++ concat (slot_effects G <$> circles s)).
Proof.
  unfold for_in. rewrite foldl_visit by lia.
  rewrite firstn_all, drop_all. by rewrite app_nil_r.
Qed.

End Pointwise.

Lemma foldl_ext_in {A B} (f g : A -> B -> A) (l : list B) (a : A) :
  (forall a b, f a b = g a b) -> foldl f a l = foldl g a l.
Proof.
  intros E. revert a. induction l as [|b l IH]; intros a; simpl; [done|].
  by rewrite E, IH.
Qed.

Lemma for_in_ext s (f g : nat -> PlayGround.t -> PlayGround.t) :
  (forall k s, f k s = g k s) -> PlayGround.for_in s f = PlayGround.for_in s g.
Proof. intros E. unfold PlayGround.for_in. apply foldl_ext_in. intros; apply E. Qed.

(** ** The three slot-wise phases in closed form *)

Section Phases.
Import PlayGround.

Lemma visit_id (s : t) k c :
  get s k = Some c ->
  emit [] (set_circles (<[k := Some c]> (circles s)) s) = s.
Proof.
  unfold get. intros Hk. destruct (circles s !! k) as [[c0|]|] eqn:E; try done.
  injection Hk as ->. destruct s as [n cs es]; unfold emit, set_circles; simpl in *.
  by rewrite list_insert_id, app_nil_r.
Qed.

Lemma emit_nil (s : t) : emit [] s = s.
Proof. destruct s; unfold emit; simpl. by rewrite app_nil_r. Qed.

Lemma handleDeletions_visit s : handleDeletions s = for_in s (visit reap_slot).
Proof.
  apply for_in_ext. intros k s'. unfold visit, reap_slot.
  destruct (get s' k) as [c|] eqn:E; [|done].
  destruct (Circle.collided c); simpl; [|by rewrite visit_id].
  destruct (Rleb _ _); simpl; [done|by rewrite visit_id].
Qed.

Lemma checkForWallCollisions_visit W H s :
  checkForWallCollisions W H s = for_in s (visit (wall_slot W H)).
Proof.
  apply for_in_ext. intros k s'. unfold visit, wall_slot.
  destruct (get s' k) as [c|] eqn:E; [|done]. simpl. by rewrite emit_nil.
Qed.

Lemma updatePositions_visit s : updatePositions s = for_in s (visit update_slot).
Proof.
  apply for_in_ext. intros k s'. unfold visit, update_slot.
  destruct (get s' k) as [c|] eqn:E; [|done]. simpl.
  by destruct (Circle.update 1 c).
Qed.

Lemma get_for_in_visit G s k :
  get (for_in s (visit G)) k =
  match get s k with Some c => (G c).1 | None => None end.
Proof.
  rewrite for_in_visit. unfold get. simpl. rewrite list_lookup_fmap.
  destruct (circles s !! k) as [[c|]|]; simpl; try done.
  by destruct (G c).1.
Qed.

Lemma counter_for_in_visit G s : counter (for_in s (visit G)) = counter s.
Proof. by rewrite for_in_visit. Qed.

Lemma length_for_in_visit G s :
  length (circles (for_in s (visit G))) = length (circles s).
Proof. rewrite for_in_visit. simpl. by rewrite length_fmap. Qed.

Lemma get_handleDeletions s k :
  get (handleDeletions s) k =
  match get s k with
  | Some c => if Circle.collided c && Rleb (r (Circle.info c)) 0 then None else Some c
  | None => None
  end.
Proof.
  rewrite handleDeletions_visit, get_for_in_visit.
  destruct (get s k) as [c|]; [|done]. unfold reap_slot.
  by destruct (Circle.collided c && Rleb _ _).
Qed.

Lemma get_checkForWallCollisions W H s k :
  get (checkForWallCollisions W H s) k = Circle.checkForWallCollision W H <$> get s k.
Proof.
  rewrite checkForWallCollisions_visit, get_for_in_visit.
  by destruct (get s k).
Qed.

Lemma get_updatePositions s k :
  get (updatePositions s) k = (fun c => (Circle.update 1 c).1) <$> get s k.
Proof.
  rewrite updatePositions_visit, get_for_in_visit.
  by destruct (get s k).
Qed.

Lemma effects_checkForWallCollisions W H s :
  effects (checkForWallCollisions W H s) = effects s.
Proof.
  rewrite checkForWallCollisions_visit, for_in_visit. simpl.
  assert (E : concat (slot_effects (wall_slot W H) <$> circles s) = []).
  { induction (circles s) as [|[c|] l IH]; simpl; try done. }
  rewrite E. by rewrite app_nil_r.
Qed.

End Phases.

(** ** The ball-collision pass *)

Section Detection.
Import PlayGround.

Lemma flag_if_flag_if a b c : flag_if a (flag_if b c) = flag_if (a || b) c.
Proof. by destruct a, b. Qed.

Lemma flag_if_geo b c : Circle.set_collided false (flag_if b c) = Circle.set_collided false c.
Proof. by destruct b. Qed.

Lemma set_collided_false_info a b :
  Circle.set_collided false a = Circle.set_collided false b ->
  Circle.info a = Circle.info b.
Proof. intros E. by apply (f_equal Circle.info) in E. Qed.

Lemma get_Some_lt s k c : get s k = Some c -> k < length (circles s).
Proof.
  unfold get. destruct (circles s !! k) eqn:E; [|done].
  intros _. by apply lookup_lt_Some in E.
Qed.

Lemma get_put k c s j :
  k < length (circles s) ->
  get (put k c s) j = if decide (k = j) then Some c else get s j.
Proof.
  intros Hk. unfold get, put, set_circles. simpl.
  destruct (decide (k = j)) as [->|Hne].
  - by rewrite list_lookup_insert_eq.
  - by rewrite list_lookup_insert_ne.
Qed.

Lemma get_mark k s j : get (mark k s) j = flag_if (j =? k) <$> get s j.
Proof.
  unfold mark. destruct (get s k) as [c|] eqn:E.
  - rewrite get_put by eauto using get_Some_lt.
    destruct (decide (k = j)) as [->|Hne].
    + rewrite E, Nat.eqb_refl. done.
    + assert ((j =? k) = false) as -> by (apply Nat.eqb_neq; lia).
      by destruct (get s j).
  - destruct (Nat.eqb_spec j k) as [->|Hne].
    + by rewrite E.
    + by destruct (get s j).
Qed.

Lemma get_comparePair c1 c2 s j :
  get (comparePair c1 c2 s) j = flag_if (touch s c1 c2 j) <$> get s j.
Proof.
  unfold comparePair, touch, hits.
  destruct (get s c1) as [a|] eqn:E1; [destruct (get s c2) as [b|] eqn:E2|].
  - destruct (negb (c1 =? c2)); simpl;
      [|rewrite andb_false_r; by destruct (get s j)].
    destruct (Rltb _ _); simpl;
      [|rewrite andb_false_r; by destruct (get s j)].
    rewrite !get_mark, andb_true_r.
    destruct (get s j) as [c|]; simpl; [|done].
    by rewrite flag_if_flag_if, orb_comm.
  - rewrite andb_false_r. by destruct (get s j).
  - rewrite andb_false_r. by destruct (get s j).
Qed.

Lemma hits_same_geo s s' c1 c2 : same_geo s s' -> hits s c1 c2 = hits s' c1 c2.
Proof.
  intros G. unfold hits. pose proof (G c1) as G1. pose proof (G c2) as G2.
  destruct (get s c1) as [a|], (get s' c1) as [a'|]; try done.
  destruct (get s c2) as [b|], (get s' c2) as [b'|]; try done.
  assert (Ha : Circle.info a = Circle.info a')
    by (apply set_collided_false_info; simpl in G1; congruence).
  assert (Hb : Circle.info b = Circle.info b')
    by (apply set_collided_false_info; simpl in G2; congruence).
  unfold getDistance. by rewrite Ha, Hb.
Qed.

(** A loop whose steps only set flags, each step by a test that does not
    read flags, sets the flag of a slot when one of the tests held. *)
Section FlagLoop.
Context {B : Type} (F : B -> t -> t) (T : t -> B -> nat -> bool).
Hypothesis F_get : forall b s j, get (F b s) j = flag_if (T s b j) <$> get s j.
Hypothesis T_geo : forall b s s' j, same_geo s s' -> T s b j = T s' b j.

Lemma F_same_geo b s : same_geo (F b s) s.
Proof.
  intros j. rewrite F_get. destruct (get s j) as [c|]; simpl; [|done].
  by rewrite flag_if_geo.
Qed.

Lemma get_flag_loop l s j :
  get (foldl (fun s b => F b s) s l) j =
  flag_if (existsb (fun b => T s b j) l) <$> get s j.
Proof.
  revert s. induction l as [|b l IH]; intros s; simpl.
  - by destruct (get s j).
  - rewrite IH, F_get.
    destruct (get s j) as [c|]; simpl; [|done].
    rewrite flag_if_flag_if, orb_comm. do 2 f_equal. f_equal.
    clear IH. induction l as [|b' l IHl]; simpl; [done|].
    rewrite IHl. f_equal. apply T_geo, F_same_geo.
Qed.

End FlagLoop.

Lemma touch_same_geo s s' c1 c2 j : same_geo s s' -> touch s c1 c2 j = touch s' c1 c2 j.
Proof. intros G. unfold touch. by rewrite (hits_same_geo s s'). Qed.

Lemma length_mark k s : length (circles (mark k s)) = length (circles s).
Proof.
  unfold mark. destruct (get s k); [|done]. simpl. by rewrite length_insert.
Qed.

Lemma length_comparePair c1 c2 s :
  length (circles (comparePair c1 c2 s)) = length (circles s).
Proof.
  unfold comparePair. destruct (get s c1), (get s c2); try done.
  destruct (negb _); [|done]. destruct (Rltb _ _); [|done].
  by rewrite !length_mark.
Qed.

Lemma length_foldl_comparePair c1 l s :
  length (circles (foldl (fun s c2 => comparePair c1 c2 s) s l)) = length (circles s).
Proof.
  revert s. induction l as [|c2 l IH]; intros s; simpl; [done|].
  by rewrite IH, length_comparePair.
Qed.

Lemma comparePair_hole c1 c2 s : get s c1 = None -> comparePair c1 c2 s = s.
Proof. intros E. unfold comparePair. by rewrite E. Qed.

Lemma foldl_comparePair_hole c1 l s :
  get s c1 = None -> foldl (fun s c2 => comparePair c1 c2 s) s l = s.
Proof.
  intros E. induction l as [|c2 l IH]; simpl; [done|].
  by rewrite comparePair_hole.
Qed.

(** The double loop with the guard of the outer body and the array length
    read once. *)
Lemma checkForBallCollisions_foldl s :
  checkForBallCollisions s =
  foldl (fun s c1 =>
           foldl (fun s c2 => comparePair c1 c2 s) s (seq 0 (length (circles s))))
        s (seq 0 (length (circles s))).
Proof.
  unfold checkForBallCollisions, for_in. apply foldl_ext_in. intros s' c1.
  destruct (get s' c1) eqn:E; [done|]. by rewrite foldl_comparePair_hole.
Qed.

Lemma foldl_fixed_length n l s :
  length (circles s) = n ->
  foldl (fun s c1 =>
           foldl (fun s c2 => comparePair c1 c2 s) s (seq 0 (length (circles s))))
        s l =
  foldl (fun s c1 => foldl (fun s c2 => comparePair c1 c2 s) s (seq 0 n)) s l.
Proof.
  revert s. induction l as [|c1 l IH]; intros s Hn; simpl; [done|].
  rewrite Hn. apply IH. by rewrite length_foldl_comparePair.
Qed.

(** Closed form of one slot after the pass. *)
Lemma get_checkForBallCollisions s j :
  get (checkForBallCollisions s) j = flag_if (flagged s j) <$> get s j.
Proof.
  rewrite checkForBallCollisions_foldl.
  rewrite (foldl_fixed_length (length (circles s))) by done.
  unfold flagged. set (n := length (circles s)).
  apply (get_flag_loop
           (fun c1 s => foldl (fun s c2 => comparePair c1 c2 s) s (seq 0 n))
           (fun s c1 j => existsb (fun c2 => touch s c1 c2 j) (seq 0 n))).
  - intros c1 s' j'.
    apply (get_flag_loop (fun c2 s => comparePair c1 c2 s)
                         (fun s c2 j => touch s c1 c2 j)).
    + intros. apply get_comparePair.
    + intros. by apply touch_same_geo.
  - intros c1 s1 s2 j' G. induction (seq 0 n) as [|c2 l IH]; simpl; [done|].
    by rewrite IH, (touch_same_geo s1 s2).
Qed.

Lemma same_frame_refl s : same_frame s s.
Proof. done. Qed.

Lemma same_frame_trans s1 s2 s3 :
  same_frame s1 s2 -> same_frame s2 s3 -> same_frame s1 s3.
Proof. unfold same_frame. intros (?&?&?) (?&?&?). repeat split; congruence. Qed.

Lemma same_frame_mark k s : same_frame s (mark k s).
Proof.
  unfold mark. destruct (get s k); [|done].
  repeat split. simpl. by rewrite length_insert.
Qed.

Lemma same_frame_comparePair c1 c2 s : same_frame s (comparePair c1 c2 s).
Proof.
  unfold comparePair. destruct (get s c1), (get s c2); try done.
  destruct (negb _); [|done]. destruct (Rltb _ _); [|done].
  eapply same_frame_trans; apply same_frame_mark.
Qed.

Lemma same_frame_foldl {B} (F : B -> t -> t) l s :
  (forall b s, same_frame s (F b s)) ->
  same_frame s (foldl (fun s b => F b s) s l).
Proof.
  intros HF. revert s. induction l as [|b l IH]; intros s; simpl; [done|].
  eapply same_frame_trans; [apply HF|apply IH].
Qed.

Lemma same_frame_checkForBallCollisions s : same_frame s (checkForBallCollisions s).
Proof.
  rewrite checkForBallCollisions_foldl.
  apply (same_frame_foldl
           (fun c1 s => foldl (fun s c2 => comparePair c1 c2 s) s
                              (seq 0 (length (circles s))))).
  intros c1 s'. apply (same_frame_foldl (fun c2 s => comparePair c1 c2 s)).
  intros. apply same_frame_comparePair.
Qed.

(** Closed form of the whole state after the pass. *)
Lemma checkForBallCollisions_closed s :
  checkForBallCollisions s =
  mk (counter s)
     (imap (fun j oc => flag_if (flagged s j) <$> oc) (circles s))
     (effects s).
Proof.
  destruct (same_frame_checkForBallCollisions s) as (Hc & He & Hl).
  destruct (checkForBallCollisions s) as [n cs es] eqn:E. simpl in *.
  subst n es. f_equal. apply list_eq. intros j.
  rewrite list_lookup_imap.
  pose proof (get_checkForBallCollisions s j) as Hg.
  rewrite E in Hg. unfold get in Hg. simpl in Hg.
  destruct (circles s !! j) as [oc|] eqn:Ej; simpl.
  - destruct (lookup_lt_is_Some_2 cs j) as [oc' Hoc'].
    { rewrite Hl. by eapply lookup_lt_Some. }
    rewrite Hoc' in Hg |- *. f_equal.
    destruct oc as [c|], oc' as [c'|]; simpl in *; congruence.
  - apply lookup_ge_None. rewrite Hl. by apply lookup_ge_None.
Qed.

End Detection.

(** ** The flags after the ball-collision pass *)

Section Flags.
Import PlayGround.

Lemma getDistance_sym a b : getDistance a b = getDistance b a.
Proof. unfold getDistance. simpl. f_equal. ring. Qed.

Lemma hits_true s c1 c2 :
  hits s c1 c2 = true <->
  c1 <> c2 /\ exists a b, get s c1 = Some a /\ get s c2 = Some b /\
    (getDistance a b < r (Circle.info a) + r (Circle.info b))%R.
Proof.
  unfold hits. destruct (get s c1) as [a|]; [destruct (get s c2) as [b|]|].
  - rewrite andb_true_iff, negb_true_iff, Nat.eqb_neq, Rltb_true. split.
    + intros [? ?]. split; [done|]. by exists a, b.
    + intros [? (a' & b' & [= <-] & [= <-] & ?)]. done.
  - split; [done|]. intros [_ (a' & b' & _ & ? & _)]. done.
  - split; [done|]. intros [_ (a' & b' & ? & _)]. done.
Qed.

(** The flag test of a live slot, in words: some other live body is
    closer than the sum of the radii. *)
Lemma flagged_overlap (s : t) (i : nat) (c : Circle.t) :
  get s i = Some c ->
  flagged s i = true <->
  exists j cj, j <> i /\ get s j = Some cj /\
    (getDistance c cj < r (Circle.info c) + r (Circle.info cj))%R.
Proof.
  intros Hi. unfold flagged. rewrite existsb_exists. split.
  - intros (c1 & _ & H1). apply existsb_exists in H1 as (c2 & _ & H2).
    unfold touch in H2. apply andb_true_iff in H2 as [Hj Hh].
    apply hits_true in Hh as [Hne (a' & b' & Ha & Hb' & Hd)].
    apply orb_true_iff in Hj as [Hj|Hj]; apply Nat.eqb_eq in Hj; subst.
    + exists c2, b'. rewrite Hi in Ha. injection Ha as <-. done.
    + exists c1, a'. rewrite Hi in Hb'. injection Hb' as <-.
      rewrite getDistance_sym, Rplus_comm. done.
  - intros (j & cj & Hne & Hj & Hd).
    exists i. split; [apply in_seq; apply get_Some_lt in Hi; lia|].
    apply existsb_exists. exists j.
    split; [apply in_seq; apply get_Some_lt in Hj; lia|].
    unfold touch. rewrite Nat.eqb_refl. simpl.
    apply hits_true. split; [done|]. by exists c, cj.
Qed.

(** C1.  After the ball-collision pass, a live body is flagged exactly when
    it was flagged before the pass or some other live body has its centre
    at a Euclidean distance, the root of the sum of the squared
    coordinate differences, strictly smaller than the sum of the two
    radii; the pass changes nothing else of the body. *)
Theorem checkForBallCollisions_flags (s : t) (i : nat) (c : Circle.t) :
  get s i = Some c ->
  exists c',
    get (checkForBallCollisions s) i = Some c' /\
    c' = Circle.set_collided (Circle.collided c') c /\
    (Circle.collided c' = true <->
     Circle.collided c = true \/
     exists j cj, j <> i /\ get s j = Some cj /\
       (sqrt ((cx (Circle.info c) - cx (Circle.info cj)) ^ 2
              + (cy (Circle.info c) - cy (Circle.info cj)) ^ 2)
        < r (Circle.info c) + r (Circle.info cj))%R).
Proof.
  intros Hi. rewrite get_checkForBallCollisions, Hi. simpl.
  pose proof (flagged_overlap s i c Hi) as Hb.
  unfold getDistance in Hb. cbv zeta in Hb.
  exists (flag_if (flagged s i) c). split; [done|].
  destruct (flagged s i), c as [id [|] st inf]; simpl in *; intuition.
Qed.

End Flags.

(** ** Walls *)

Section Walls.
Import PlayGround.
Local Open Scope R_scope.

(** The wall check reads the centre and the radius, and writes only the
    velocity. *)
Lemma checkForWallCollision_frame W H c :
  let c' := Circle.checkForWallCollision W H c in
  Circle.html_id c' = Circle.html_id c /\
  Circle.collided c' = Circle.collided c /\
  Circle.strength c' = Circle.strength c /\
  cx (Circle.info c') = cx (Circle.info c) /\
  cy (Circle.info c') = cy (Circle.info c) /\
  r (Circle.info c') = r (Circle.info c).
Proof.
  destruct c as [id fl st [px py rad [vx vy]]].
  unfold Circle.checkForWallCollision, Circle.set_info, set_velocity, set_x, set_y.
  cbn. case_Rltb; repeat split; reflexivity.
Qed.

(** The velocity after the wall check, axis by axis. *)
Lemma checkForWallCollision_x W H c :
  x (velocity (Circle.info (Circle.checkForWallCollision W H c))) =
  if Rltb W (cx (Circle.info c) + r (Circle.info c)) then
    - Rabs (x (velocity (Circle.info c)))
  else if Rltb (cx (Circle.info c) - r (Circle.info c)) 0 then
    Rabs (x (velocity (Circle.info c)))
  else x (velocity (Circle.info c)).
Proof.
  destruct c as [id fl st [px py rad [vx vy]]].
  unfold Circle.checkForWallCollision, Circle.set_info, set_velocity, set_x, set_y.
  cbn. case_Rltb; reflexivity.
Qed.

Lemma checkForWallCollision_y W H c :
  y (velocity (Circle.info (Circle.checkForWallCollision W H c))) =
  if Rltb H (cy (Circle.info c) + r (Circle.info c)) then
    - Rabs (y (velocity (Circle.info c)))
  else if Rltb (cy (Circle.info c) - r (Circle.info c)) 0 then
    Rabs (y (velocity (Circle.info c)))
  else y (velocity (Circle.info c)).
Proof.
  destruct c as [id fl st [px py rad [vx vy]]].
  unfold Circle.checkForWallCollision, Circle.set_info, set_velocity, set_x, set_y.
  cbn. case_Rltb; reflexivity.
Qed.

(** C7.  A live body that reaches beyond the right edge before the wall
    pass has a velocity whose x component is not positive after it. *)
Theorem checkForWallCollisions_right_edge (W H : R) (s : t) (i : nat) (c : Circle.t) :
  get s i = Some c ->
  W < cx (Circle.info c) + r (Circle.info c) ->
  exists c',
    get (checkForWallCollisions W H s) i = Some c' /\
    c' = Circle.checkForWallCollision W H c /\
    x (velocity (Circle.info c')) <= 0.
Proof.
  intros Hi Hw. rewrite get_checkForWallCollisions, Hi. simpl.
  eexists. split; [reflexivity|]. split; [reflexivity|].
  rewrite checkForWallCollision_x.
  apply Rltb_true in Hw. rewrite Hw.
  pose proof (Rabs_pos (x (velocity (Circle.info c)))). lra.
Qed.

(** C8, as stated, fails: [wide_circle] violates the left and the right
    condition of a document of width 100; only the right one is acted on,
    and the velocity points to the left, further out of the left edge. *)
Lemma checkForWallCollision_left_skipped :
  let c := wide_circle in
  let c' := Circle.checkForWallCollision 100 1000 c in
  100 < cx (Circle.info c) + r (Circle.info c) /\
  cx (Circle.info c) - r (Circle.info c) < 0 /\
  x (velocity (Circle.info c')) = -1 /\
  x (velocity (Circle.info c')) <> Rabs (x (velocity (Circle.info c))) /\
  ~ 0 <= x (velocity (Circle.info c')).
Proof.
  cbv zeta. rewrite checkForWallCollision_x. unfold wide_circle. simpl.
  assert (E : Rltb 100 (50 + 60) = true) by (apply Rltb_true; lra).
  rewrite E. rewrite Rabs_R1.
  repeat split; lra.
Qed.

(** C8, amended.  The two axes are treated independently and on each axis
    the far edge (right, bottom) is tested first: a violated far edge
    makes the component non-positive, a violated near edge (left, top)
    makes it non-negative only when the far edge of that axis is not
    violated, and a component whose axis violates nothing is unchanged. *)
Theorem checkForWallCollision_axes (W H : R) (c : Circle.t) :
  let i := Circle.info c in
  let v := velocity i in
  let v' := velocity (Circle.info (Circle.checkForWallCollision W H c)) in
  (W < cx i + r i -> x v' = - Rabs (x v)) /\
  (~ W < cx i + r i -> cx i - r i < 0 -> x v' = Rabs (x v)) /\
  (~ W < cx i + r i -> ~ cx i - r i < 0 -> x v' = x v) /\
  (H < cy i + r i -> y v' = - Rabs (y v)) /\
  (~ H < cy i + r i -> cy i - r i < 0 -> y v' = Rabs (y v)) /\
  (~ H < cy i + r i -> ~ cy i - r i < 0 -> y v' = y v).
Proof.
  cbv zeta. rewrite checkForWallCollision_x, checkForWallCollision_y.
  case_Rltb;
    repeat match goal with
           | E : Rltb _ _ = true |- _ => apply Rltb_true in E
           | E : Rltb _ _ = false |- _ => apply Rltb_false in E
           end;
    repeat split; intros; try reflexivity; lra.
Qed.

Lemma checkForWallCollision_idem W H c :
  Circle.checkForWallCollision W H (Circle.checkForWallCollision W H c) =
  Circle.checkForWallCollision W H c.
Proof.
  destruct c as [id fl st [px py rad [vx vy]]].
  unfold Circle.checkForWallCollision, Circle.set_info, set_velocity, set_x, set_y.
  cbn. case_Rltb; rewrite ?Rabs_Ropp, ?Rabs_Rabsolu; reflexivity.
Qed.

(** C10.  The wall check of a body is idempotent, and so is the wall pass
    over the whole array. *)
Theorem checkForWallCollisions_idempotent (W H : R) :
  (forall c : Circle.t,
     Circle.checkForWallCollision W H (Circle.checkForWallCollision W H c) =
     Circle.checkForWallCollision W H c) /\
  (forall s : t,
     checkForWallCollisions W H (checkForWallCollisions W H s) =
     checkForWallCollisions W H s).
Proof.
  split; [apply checkForWallCollision_idem|].
  intros s. rewrite !checkForWallCollisions_visit, !for_in_visit. simpl.
  assert (E : forall l, concat (slot_effects (wall_slot W H) <$> l) = []).
  { induction l as [|[c|] l IH]; simpl; done. }
  rewrite !E, !app_nil_r. f_equal.
  rewrite <- list_fmap_compose. apply list_fmap_ext. intros _ [c|] _; simpl; [|done].
  by rewrite checkForWallCollision_idem.
Qed.

End Walls.

(** ** The update step and one whole tick *)

Section Tick.
Import PlayGround.
Local Open Scope R_scope.

Lemma update_strength time c :
  Circle.strength (Circle.update time c).1 =
  if damaged c then (Circle.strength c - 1)%Z else Circle.strength c.
Proof.
  unfold Circle.update, damaged. simpl.
  by destruct (Circle.collided c), (0 <? Circle.strength c)%Z.
Qed.

Lemma update_collided time c :
  Circle.collided (Circle.update time c).1 = decays c.
Proof.
  unfold Circle.update, decays. simpl.
  by destruct (Circle.collided c) eqn:E, (0 <? Circle.strength c)%Z.
Qed.

Lemma update_r time c :
  r (Circle.info (Circle.update time c).1) =
  if decays c then Rmax (r (Circle.info c) - 1) 0 else r (Circle.info c).
Proof.
  unfold Circle.update, decays. simpl.
  by destruct (Circle.collided c), (0 <? Circle.strength c)%Z.
Qed.

Lemma update_cx time c :
  cx (Circle.info (Circle.update time c).1) =
  cx (Circle.info c) + x (velocity (Circle.info c)) * time.
Proof.
  unfold Circle.update. simpl.
  by destruct (Circle.collided c), (0 <? Circle.strength c)%Z.
Qed.

Lemma update_cy time c :
  cy (Circle.info (Circle.update time c).1) =
  cy (Circle.info c) + y (velocity (Circle.info c)) * time.
Proof.
  unfold Circle.update. simpl.
  by destruct (Circle.collided c), (0 <? Circle.strength c)%Z.
Qed.

Lemma update_html_id time c :
  Circle.html_id (Circle.update time c).1 = Circle.html_id c.
Proof.
  unfold Circle.update. simpl.
  by destruct (Circle.collided c), (0 <? Circle.strength c)%Z.
Qed.

Lemma update_effects time c :
  (Circle.update time c).2 = if damaged c then [Play "zee-ow"%string] else [].
Proof.
  unfold Circle.update, damaged. simpl.
  by destruct (Circle.collided c), (0 <? Circle.strength c)%Z.
Qed.

Lemma get_checkForCollisions W H s k :
  get (checkForCollisions W H s) k =
  match flag_if (flagged s k) <$> get s k with
  | Some c =>
      if Circle.collided c && Rleb (r (Circle.info c)) 0 then None
      else Some (Circle.checkForWallCollision W H c)
  | None => None
  end.
Proof.
  unfold checkForCollisions.
  rewrite get_checkForWallCollisions, get_handleDeletions, get_checkForBallCollisions.
  destruct (get s k) as [c|]; simpl; [|done].
  by destruct (Circle.collided _ && Rleb _ _).
Qed.

Lemma get_loop W H s k :
  get (loop W H s) k = (flag_if (flagged s k) <$> get s k) ≫= tick_slot W H.
Proof.
  unfold loop. rewrite get_updatePositions, get_checkForCollisions.
  destruct (get s k) as [c|]; simpl; [|done]. unfold tick_slot.
  by destruct (_ && _).
Qed.

Lemma length_loop W H s : length (circles (loop W H s)) = length (circles s).
Proof.
  unfold loop, checkForCollisions.
  rewrite updatePositions_visit, length_for_in_visit.
  rewrite checkForWallCollisions_visit, length_for_in_visit.
  rewrite handleDeletions_visit, length_for_in_visit.
  apply same_frame_checkForBallCollisions.
Qed.

Lemma flag_if_frame b c :
  Circle.html_id (flag_if b c) = Circle.html_id c /\
  Circle.strength (flag_if b c) = Circle.strength c /\
  Circle.info (flag_if b c) = Circle.info c /\
  Circle.collided (flag_if b c) = b || Circle.collided c.
Proof. by destruct b. Qed.

End Tick.

(** ** Strength, phase order and reaping *)

Section TickClaims.
Import PlayGround.
Local Open Scope R_scope.

(** C3.  Over one tick the strength of a surviving body never grows.  With
    [cu] the body as its update step finds it, the strength drops by
    exactly one, and the flag is cleared, when [cu] is flagged and has
    strength left; otherwise the strength is unchanged. *)
Theorem strength_per_tick (W H : R) (s : t) (i : nat) (c c' : Circle.t) :
  get s i = Some c ->
  get (loop W H s) i = Some c' ->
  exists cu,
    get (checkForCollisions W H s) i = Some cu /\
    c' = (Circle.update 1 cu).1 /\
    Circle.strength cu = Circle.strength c /\
    (Circle.strength c' <= Circle.strength c)%Z /\
    (Circle.collided cu = true /\ (0 < Circle.strength cu)%Z ->
     Circle.strength c' = (Circle.strength c - 1)%Z /\
     Circle.collided c' = false) /\
    (~ (Circle.collided cu = true /\ (0 < Circle.strength cu)%Z) ->
     Circle.strength c' = Circle.strength c).
Proof.
  intros Hi Hl. unfold loop in Hl. rewrite get_updatePositions in Hl.
  destruct (get (checkForCollisions W H s) i) as [cu|] eqn:Hu; [|done].
  simpl in Hl. injection Hl as <-. exists cu. split; [done|]. split; [done|].
  assert (Hs : Circle.strength cu = Circle.strength c).
  { rewrite get_checkForCollisions, Hi in Hu. simpl in Hu.
    destruct (_ && _); [done|]. injection Hu as <-.
    destruct (checkForWallCollision_frame W H (flag_if (flagged s i) c))
      as (_ & _ & -> & _).
    by destruct (flagged s i). }
  split; [done|].
  rewrite update_strength, update_collided. unfold damaged, decays. rewrite Hs.
  destruct (Circle.collided cu); simpl;
    destruct (Z.ltb_spec 0 (Circle.strength c)); simpl;
    repeat split; intros; try lia; try tauto; try (exfalso; intuition; fail).
Qed.

Lemma update_leaves_velocity time c :
  velocity (Circle.info (Circle.update time c).1) = velocity (Circle.info c).
Proof.
  unfold Circle.update. simpl.
  by destruct (Circle.collided c), (0 <? Circle.strength c)%Z.
Qed.

(** C5.  One tick is detection, then reaping, then the wall pass, then the
    update of every remaining body.  Detection changes flags only; reaping
    acts on the flags of this tick's detection and comes before the
    update, so a body of positive radius is still there after the tick;
    the effects of reaping precede those of the update in the log.  For a
    body that is still there after the tick, the velocity is the one the
    wall tests on its old centre and radius leave, the centre has moved
    by that velocity, and the strength transition was applied by the
    update on the flag of this tick's detection: flagged with strength
    left, one strength less and the flag cleared; flagged without
    strength, the radius one less (not below 0) and the flag kept; not
    flagged, neither changed. *)
Theorem loop_phase_order (W H : R) (s : t) :
  loop W H s =
    updatePositions
      (checkForWallCollisions W H (handleDeletions (checkForBallCollisions s))) /\
  (forall i c, get s i = Some c ->
     exists cd, get (checkForBallCollisions s) i = Some cd /\
       Circle.strength cd = Circle.strength c /\
       Circle.info cd = Circle.info c) /\
  (forall i c cd, get s i = Some c ->
     get (checkForBallCollisions s) i = Some cd ->
     Circle.collided cd = true -> r (Circle.info c) <= 0 ->
     get (loop W H s) i = None) /\
  (forall i c, get s i = Some c -> 0 < r (Circle.info c) ->
     is_Some (get (loop W H s) i)) /\
  (forall i cd, get (handleDeletions (checkForBallCollisions s)) i = Some cd ->
     get (loop W H s) i =
       Some (Circle.update 1 (Circle.checkForWallCollision W H cd)).1) /\
  effects (loop W H s) =
    effects s
    ++ concat (slot_effects reap_slot <$> circles (checkForBallCollisions s))
    ++ concat (slot_effects update_slot <$> circles (checkForCollisions W H s)) /\
  (forall c,
     slot_effects reap_slot (Some c) =
       (if Circle.collided c && Rleb (r (Circle.info c)) 0
        then [RemoveChild (Circle.html_id c); Play "trash"%string] else []) /\
     slot_effects update_slot (Some c) =
       (if Circle.collided c && (0 <? Circle.strength c)%Z
        then [Play "zee-ow"%string] else [])) /\
  (forall i c cd c', get s i = Some c ->
     get (checkForBallCollisions s) i = Some cd ->
     get (loop W H s) i = Some c' ->
     x (velocity (Circle.info c')) =
       (if Rltb W (cx (Circle.info c) + r (Circle.info c)) then
          - Rabs (x (velocity (Circle.info c)))
        else if Rltb (cx (Circle.info c) - r (Circle.info c)) 0 then
          Rabs (x (velocity (Circle.info c)))
        else x (velocity (Circle.info c))) /\
     y (velocity (Circle.info c')) =
       (if Rltb H (cy (Circle.info c) + r (Circle.info c)) then
          - Rabs (y (velocity (Circle.info c)))
        else if Rltb (cy (Circle.info c) - r (Circle.info c)) 0 then
          Rabs (y (velocity (Circle.info c)))
        else y (velocity (Circle.info c))) /\
     cx (Circle.info c') = cx (Circle.info c) + x (velocity (Circle.info c')) * 1 /\
     cy (Circle.info c') = cy (Circle.info c) + y (velocity (Circle.info c')) * 1 /\
     (Circle.collided cd = true -> (0 < Circle.strength c)%Z ->
      Circle.strength c' = (Circle.strength c - 1)%Z /\
      Circle.collided c' = false /\
      r (Circle.info c') = r (Circle.info c)) /\
     (Circle.collided cd = true -> (Circle.strength c <= 0)%Z ->
      Circle.strength c' = Circle.strength c /\
      Circle.collided c' = true /\
      r (Circle.info c') = Rmax (r (Circle.info c) - 1) 0) /\
     (Circle.collided cd = false ->
      Circle.strength c' = Circle.strength c /\
      Circle.collided c' = false /\
      r (Circle.info c') = r (Circle.info c))).
Proof.
  split; [done|]. split; [|split; [|split; [|split; [|split; [|split]]]]].
  - intros i c Hi. rewrite get_checkForBallCollisions, Hi. simpl.
    eexists. split; [reflexivity|]. by destruct (flagged s i).
  - intros i c cd Hi Hd Hc Hr.
    rewrite get_loop. rewrite get_checkForBallCollisions in Hd.
    rewrite Hi in Hd |- *. simpl in *. injection Hd as <-.
    unfold tick_slot. rewrite Hc.
    destruct (flag_if_frame (flagged s i) c) as (_ & _ & -> & _).
    apply Rleb_true in Hr. by rewrite Hr.
  - intros i c Hi Hr. rewrite get_loop, Hi. simpl. unfold tick_slot.
    destruct (flag_if_frame (flagged s i) c) as (_ & _ & -> & _).
    assert (E : Rleb (r (Circle.info c)) 0 = false) by (apply Rleb_false; lra).
    rewrite E, andb_false_r. done.
  - intros i cd Hd. unfold loop, checkForCollisions.
    by rewrite get_updatePositions, get_checkForWallCollisions, Hd.
  - unfold loop. rewrite updatePositions_visit, for_in_visit. simpl.
    unfold checkForCollisions at 1. rewrite effects_checkForWallCollisions.
    rewrite handleDeletions_visit, for_in_visit. simpl.
    destruct (same_frame_checkForBallCollisions s) as (_ & -> & _).
    by rewrite <- app_assoc.
  - intros c. split.
    + simpl. unfold reap_slot. by destruct (_ && _).
    + simpl. rewrite update_effects. done.
  - intros i c cd c' Hi Hd Hl.
    rewrite get_checkForBallCollisions, Hi in Hd. simpl in Hd. injection Hd as <-.
    rewrite get_loop, Hi in Hl. simpl in Hl. unfold tick_slot in Hl.
    destruct (_ && _); [done|]. injection Hl as <-.
    set (cd := flag_if (flagged s i) c).
    destruct (flag_if_frame (flagged s i) c) as (_ & Hst & Hinf & _).
    fold cd in Hst, Hinf.
    destruct (checkForWallCollision_frame W H cd)
      as (_ & Hwf & Hws & Hwx & Hwy & Hwr).
    rewrite update_leaves_velocity, update_cx, update_cy.
    rewrite update_strength, update_collided, update_r.
    unfold damaged, decays.
    rewrite checkForWallCollision_x, checkForWallCollision_y.
    rewrite Hwf, Hws, Hwx, Hwy, Hwr, Hst, Hinf.
    split; [done|]. split; [done|]. split; [done|]. split; [done|].
    split; [|split].
    + intros -> Hs. apply Z.ltb_lt in Hs. by rewrite Hs.
    + intros -> Hs. apply Z.ltb_ge in Hs. by rewrite Hs.
    + intros ->. done.
Qed.

End TickClaims.

(** ** Runs from a fresh playground *)

Section Runs.
Import PlayGround.
Local Open Scope R_scope.

Lemma run_snoc s ops o : run s (ops ++ [o]) = step (run s ops) o.
Proof. unfold run. by rewrite foldl_app. Qed.

Lemma run_app s ops1 ops2 : run s (ops1 ++ ops2) = run (run s ops1) ops2.
Proof. unfold run. by rewrite foldl_app. Qed.

Lemma get_createNewCircle px py rad st u1 u2 s i c :
  get (createNewCircle px py rad st u1 u2 s) i = Some c ->
  get s i = Some c \/
  (i = length (circles s) /\ c = (Circle.new px py rad st (counter s) u1 u2).1).
Proof.
  unfold createNewCircle, get. simpl.
  destruct (decide (i < length (circles s))%nat) as [Hlt|Hge].
  - rewrite lookup_app_l by done. auto.
  - rewrite lookup_app_r by lia.
    destruct (i - length (circles s))%nat as [|k] eqn:E; simpl.
    + intros [= <-]. right. split; [lia|done].
    + done.
Qed.

Lemma get_createNewCircle_old px py rad st u1 u2 s i c :
  get s i = Some c -> get (createNewCircle px py rad st u1 u2 s) i = Some c.
Proof.
  intros Hi. pose proof (get_Some_lt _ _ _ Hi) as Hlt.
  unfold createNewCircle, get in *. simpl. by rewrite lookup_app_l.
Qed.

Lemma decay_tick_snoc init ops o i :
  decay_tick init ops i -> decay_tick init (ops ++ [o]) i.
Proof.
  intros (ops1 & W & H & ops2 & c1 & c2 & -> & ?).
  exists ops1, W, H, (ops2 ++ [o]), c1, c2. split; [|done].
  by rewrite <- app_assoc.
Qed.

(** One tick of a resting body that survives it. *)
Lemma tick_slot_resting W H b c c' :
  resting c ->
  tick_slot W H (flag_if b c) = Some c' ->
  (Circle.strength c' <= Circle.strength c)%Z /\
  ((0 <= Circle.strength c)%Z -> (0 <= Circle.strength c')%Z) /\
  0 < r (Circle.info c) /\
  (0 < r (Circle.info c') \/
   (r (Circle.info c') = 0 /\ Circle.collided c' = true /\
    (Circle.strength c <= 0)%Z /\ (Circle.strength c' <= 0)%Z /\
    r (Circle.info c') = Rmax (r (Circle.info c) - 1) 0)).
Proof.
  intros Hc Ht. unfold tick_slot in Ht.
  destruct (flag_if_frame b c) as (_ & Hst & Hinf & Hfl).
  rewrite Hinf, Hfl in Ht.
  destruct ((b || Circle.collided c) && Rleb (r (Circle.info c)) 0) eqn:E; [done|].
  injection Ht as <-.
  destruct (checkForWallCollision_frame W H (flag_if b c))
    as (_ & Hwf & Hws & _ & _ & Hwr).
  rewrite update_strength, update_collided, update_r.
  unfold damaged, decays. rewrite Hwf, Hws, Hwr, Hst, Hinf, Hfl.
  assert (Hpos : 0 < r (Circle.info c)).
  { destruct Hc as [?|(Hr & Hcol & _)]; [done|].
    rewrite Hcol, orb_true_r in E. simpl in E.
    apply Rleb_false in E. lra. }
  destruct (b || Circle.collided c); simpl;
    destruct (Z.ltb_spec 0 (Circle.strength c)); simpl;
    repeat split; try lia; try done; auto.
  destruct (Rle_dec (r (Circle.info c) - 1) 0) as [Hle|Hgt].
  - right. rewrite Rmax_right by done. done.
  - left. rewrite Rmax_left by lra. lra.
Qed.

Lemma new_resting W H u1 u2 i c :
  get (new W H u1 u2) i = Some c ->
  0 < r (Circle.info c) /\ (0 <= Circle.strength c)%Z.
Proof.
  unfold new. intros Hi. apply get_createNewCircle in Hi as [Hi|[_ ->]].
  - unfold get in Hi. simpl in Hi. done.
  - simpl. unfold INITIAL_RADIUS, INITIAL_STRENGTH. split; [lra|lia].
Qed.

(** Every live body of a run is resting, and one of radius 0 has a decay
    tick behind it. *)
Lemma run_resting W0 H0 u1 u2 ops :
  Forall spawn_radius_positive ops ->
  forall i c, get (run (new W0 H0 u1 u2) ops) i = Some c ->
    resting c /\
    (0 < r (Circle.info c) \/ decay_tick (new W0 H0 u1 u2) ops i).
Proof.
  induction ops as [|o ops IH] using rev_ind; intros Hwf i c Hi.
  - apply new_resting in Hi as [? _]. split; by left.
  - apply Forall_app in Hwf as [Hwf Ho]. apply Forall_cons in Ho as [Ho _].
    specialize (IH Hwf). rewrite run_snoc in Hi.
    destruct o as [px py rad st v1 v2|W H]; simpl in Hi, Ho.
    + apply get_createNewCircle in Hi as [Hi|[_ ->]].
      * destruct (IH i c Hi) as [? [?|?]]; split; auto.
        right. by apply decay_tick_snoc.
      * simpl. split; by left.
    + rewrite get_loop in Hi.
      destruct (get (run (new W0 H0 u1 u2) ops) i) as [c0|] eqn:E0; [|done].
      simpl in Hi. destruct (IH i c0 E0) as [Hr0 _].
      destruct (tick_slot_resting _ _ _ _ _ Hr0 Hi)
        as (_ & _ & Hpos & [Hr|(Hr & Hcol & Hs0 & Hs & Hmax)]).
      * split; by left.
      * split; [right; done|]. right.
        exists ops, W, H, [], c0, c. repeat split; try done.
        -- rewrite get_loop, E0. done.
        -- lra.
Qed.

Lemma run_strength_nonneg W0 H0 u1 u2 ops :
  Forall spawn_radius_positive ops ->
  Forall spawn_strength_nonneg ops ->
  forall i c, get (run (new W0 H0 u1 u2) ops) i = Some c ->
    (0 <= Circle.strength c)%Z.
Proof.
  induction ops as [|o ops IH] using rev_ind; intros Hwf Hst i c Hi.
  - by apply new_resting in Hi as [_ ?].
  - apply Forall_app in Hwf as [Hwf _].
    apply Forall_app in Hst as [Hst Ho]. apply Forall_cons in Ho as [Ho _].
    specialize (IH Hwf Hst). rewrite run_snoc in Hi.
    destruct o as [px py rad st v1 v2|W H]; simpl in Hi, Ho.
    + apply get_createNewCircle in Hi as [Hi|[_ ->]]; [by eapply IH|done].
    + rewrite get_loop in Hi.
      destruct (get (run (new W0 H0 u1 u2) ops) i) as [c0|] eqn:E0; [|done].
      simpl in Hi.
      destruct (run_resting W0 H0 u1 u2 ops Hwf i c0 E0) as [Hr0 _].
      destruct (tick_slot_resting _ _ _ _ _ Hr0 Hi) as (_ & Hnn & _).
      apply Hnn. by eapply IH.
Qed.

End Runs.

(** ** Bodies at rest, and a playground of two of them *)

Section AtRest.
Import PlayGround.
Local Open Scope R_scope.

Lemma new_at_rest px py rad st id :
  Circle.new px py rad st id (1 / 2) (1 / 2) =
  (at_rest id false st px py rad, [AppendChild id]).
Proof.
  unfold Circle.new, Circle.initialize, at_rest, Circle.set_info, set_velocity.
  simpl.
  assert (E : Circle.randomNumberBetween (- MAX_VELOCITY) MAX_VELOCITY (1 / 2)
              / Circle.pow_half rad = 0).
  { assert (E0 : Circle.randomNumberBetween (- MAX_VELOCITY) MAX_VELOCITY (1 / 2) = 0)
      by (unfold Circle.randomNumberBetween, MAX_VELOCITY; lra).
    rewrite E0. unfold Rdiv. apply Rmult_0_l. }
  by rewrite E.
Qed.

Lemma checkForWallCollision_at_rest W H id fl st px py rad :
  Circle.checkForWallCollision W H (at_rest id fl st px py rad) =
  at_rest id fl st px py rad.
Proof.
  unfold Circle.checkForWallCollision, at_rest, Circle.set_info,
    set_velocity, set_x, set_y.
  cbn. case_Rltb; rewrite ?Rabs_R0, ?Ropp_0; reflexivity.
Qed.

Lemma update_at_rest id fl st px py rad :
  (Circle.update 1 (at_rest id fl st px py rad)).1 =
  if fl then
    if (0 <? st)%Z then at_rest id false (st - 1) px py rad
    else at_rest id true st px py (Rmax (rad - 1) 0)
  else at_rest id false st px py rad.
Proof.
  unfold Circle.update, at_rest, Circle.set_info, Circle.set_collided,
    Circle.set_strength, set_cx, set_cy, set_r.
  simpl. replace (px + 0 * 1) with px by lra. replace (py + 0 * 1) with py by lra.
  by destruct fl, (0 <? st)%Z.
Qed.

Lemma tick_slot_at_rest W H id fl st px py rad :
  tick_slot W H (at_rest id fl st px py rad) =
  if fl && Rleb rad 0 then None
  else Some (if fl then
               if (0 <? st)%Z then at_rest id false (st - 1) px py rad
               else at_rest id true st px py (Rmax (rad - 1) 0)
             else at_rest id false st px py rad).
Proof.
  unfold tick_slot. rewrite checkForWallCollision_at_rest, update_at_rest.
  done.
Qed.

Lemma flag_if_at_rest b id fl st px py rad :
  flag_if b (at_rest id fl st px py rad) = at_rest id (b || fl) st px py rad.
Proof. by destruct b. Qed.

(** The array after one tick. *)
Lemma circles_loop W H s :
  circles (loop W H s) =
  (fun oc => oc ≫= tick_slot W H)
    <$> imap (fun j oc => flag_if (flagged s j) <$> oc) (circles s).
Proof.
  unfold loop, checkForCollisions.
  rewrite updatePositions_visit, for_in_visit. simpl.
  rewrite checkForWallCollisions_visit, for_in_visit. simpl.
  rewrite handleDeletions_visit, for_in_visit. simpl.
  rewrite checkForBallCollisions_closed. simpl.
  rewrite <- !list_fmap_compose. apply list_fmap_ext.
  intros _ [c|] _; simpl; [|done]. unfold reap_slot, tick_slot.
  by destruct (_ && _).
Qed.

(** The flag test in an array of two live bodies. *)
Lemma flagged_pair s a b j :
  circles s = [Some a; Some b] -> (j < 2)%nat ->
  flagged s j =
  Rltb (getDistance a b) (r (Circle.info a) + r (Circle.info b)).
Proof.
  intros Hs Hj. unfold flagged, touch, hits, get. rewrite Hs. simpl.
  rewrite (getDistance_sym b a), (Rplus_comm (r (Circle.info b))).
  destruct j as [|[|j]]; [| |lia]; simpl; by destruct (Rltb _ _).
Qed.

Lemma loop_pair W H s a b :
  circles s = [Some a; Some b] ->
  let h := Rltb (getDistance a b) (r (Circle.info a) + r (Circle.info b)) in
  circles (loop W H s) =
  [tick_slot W H (flag_if h a); tick_slot W H (flag_if h b)].
Proof.
  intros Hs h. rewrite circles_loop.
  assert (H0 : flagged s 0 = h) by (apply flagged_pair; [done|lia]).
  assert (H1 : flagged s 1 = h) by (apply flagged_pair; [done|lia]).
  rewrite Hs. simpl. by rewrite H0, H1.
Qed.

Lemma sqrt_of_square a b : 0 <= b -> b * b = a -> sqrt a = b.
Proof. intros Hb <-. by apply sqrt_square. Qed.

Lemma circles_two_bodies :
  circles two_bodies =
  [Some (at_rest 0 false 1 500 500 10); Some (at_rest 1 false 1 510 500 1)].
Proof.
  unfold two_bodies, run. cbn [foldl step]. unfold new.
  unfold createNewCircle at 2. rewrite new_at_rest.
  unfold createNewCircle. cbn [counter circles effects].
  rewrite new_at_rest. cbn [circles app].
  unfold INITIAL_RADIUS, INITIAL_STRENGTH.
  replace (1000 / 2) with 500 by lra. done.
Qed.

Lemma getDistance_two id1 fl1 st1 rad1 id2 fl2 st2 rad2 :
  getDistance (at_rest id1 fl1 st1 500 500 rad1)
              (at_rest id2 fl2 st2 510 500 rad2) = 10.
Proof.
  unfold getDistance. simpl. apply sqrt_of_square; lra.
Qed.

Lemma Rltb_yes a b : a < b -> Rltb a b = true.
Proof. apply Rltb_true. Qed.
Lemma Rltb_no a b : b <= a -> Rltb a b = false.
Proof. apply Rltb_false. Qed.
Lemma Rleb_yes a b : a <= b -> Rleb a b = true.
Proof. apply Rleb_true. Qed.
Lemma Rleb_no a b : b < a -> Rleb a b = false.
Proof. apply Rleb_false. Qed.

(** After the first tick: both damaged, flags cleared. *)
Lemma circles_tick1 :
  circles (loop 1000 1000 two_bodies) =
  [Some (at_rest 0 false 0 500 500 10); Some (at_rest 1 false 0 510 500 1)].
Proof.
  rewrite (loop_pair _ _ _ _ _ circles_two_bodies). cbv zeta.
  rewrite getDistance_two. simpl.
  rewrite (Rltb_yes 10 (10 + 1)) by lra.
  rewrite !flag_if_at_rest, !tick_slot_at_rest. simpl.
  rewrite (Rleb_no 10 0), (Rleb_no 1 0) by lra. done.
Qed.

(** After the second tick: both in decay, flags left set, the small one
    at radius 0. *)
Lemma circles_tick2 :
  circles (loop 1000 1000 (loop 1000 1000 two_bodies)) =
  [Some (at_rest 0 true 0 500 500 9); Some (at_rest 1 true 0 510 500 0)].
Proof.
  rewrite (loop_pair _ _ _ _ _ circles_tick1). cbv zeta.
  rewrite getDistance_two. simpl.
  rewrite (Rltb_yes 10 (10 + 1)) by lra.
  rewrite !flag_if_at_rest, !tick_slot_at_rest. simpl.
  rewrite (Rleb_no 10 0), (Rleb_no 1 0) by lra.
  replace (Rmax (10 - 1) 0) with 9 by (rewrite Rmax_left; lra).
  replace (Rmax (1 - 1) 0) with 0 by (rewrite Rmax_right; lra).
  done.
Qed.

(** After the third tick: no overlap any more, the small one reaped. *)
Lemma circles_tick3 :
  circles (loop 1000 1000 (loop 1000 1000 (loop 1000 1000 two_bodies))) =
  [Some (at_rest 0 true 0 500 500 8); None].
Proof.
  rewrite (loop_pair _ _ _ _ _ circles_tick2). cbv zeta.
  rewrite getDistance_two. simpl.
  rewrite (Rltb_no 10 (9 + 0)) by lra.
  rewrite !flag_if_at_rest, !tick_slot_at_rest. simpl.
  rewrite (Rleb_no 9 0), (Rleb_yes 0 0) by lra.
  replace (Rmax (9 - 1) 0) with 8 by (rewrite Rmax_left; lra).
  done.
Qed.

(** A tie is no collision: two bodies exactly the sum of their radii
    apart are not flagged. *)
Example tie_is_no_collision s id1 st1 id2 st2 :
  circles s = [Some (at_rest id1 false st1 500 500 9);
               Some (at_rest id2 false st2 510 500 1)] ->
  circles (checkForBallCollisions s) = circles s.
Proof.
  intros Hs. rewrite checkForBallCollisions_closed. simpl.
  assert (H0 : flagged s 0 = false).
  { rewrite (flagged_pair _ _ _ 0 Hs) by lia.
    rewrite getDistance_two. simpl. apply Rltb_no. lra. }
  assert (H1 : flagged s 1 = false).
  { rewrite (flagged_pair _ _ _ 1 Hs) by lia.
    rewrite getDistance_two. simpl. apply Rltb_no. lra. }
  rewrite Hs. simpl. by rewrite H0, H1.
Qed.

End AtRest.

(** ** Reaping, the state between ticks, and decay before removal *)

Section Lifecycle.
Import PlayGround.
Local Open Scope R_scope.

Lemma get_of_circles s l k :
  circles s = l ->
  get s k = match l !! k with Some (Some c) => Some c | _ => None end.
Proof. intros <-. done. Qed.

Lemma circles_after_two_ticks :
  circles after_two_ticks =
  [Some (at_rest 0 true 0 500 500 9); Some (at_rest 1 true 0 510 500 0)].
Proof. exact circles_tick2. Qed.

Lemma two_bodies_spawns :
  Forall spawn_radius_positive
    [Spawn 510 500 1 1 (1 / 2) (1 / 2); Tick 1000 1000; Tick 1000 1000] /\
  Forall spawn_strength_nonneg
    [Spawn 510 500 1 1 (1 / 2) (1 / 2); Tick 1000 1000; Tick 1000 1000].
Proof. split; repeat constructor; simpl; lra || lia. Qed.

(** C2, as stated, fails: after the spawn and two ticks the small body has
    radius 0 and overlaps nothing (the big body is 10 away and has radius
    9), and the third tick removes it all the same, because its flag is
    still set from the decay. *)
Lemma zero_radius_reaped_without_overlap :
  exists c,
    get after_two_ticks 1 = Some c /\
    r (Circle.info c) = 0 /\
    (forall j cj, j <> 1%nat -> get after_two_ticks j = Some cj ->
       ~ getDistance c cj < r (Circle.info c) + r (Circle.info cj)) /\
    get (loop 1000 1000 after_two_ticks) 1 = None.
Proof.
  exists (at_rest 1 true 0 510 500 0).
  split; [by rewrite (get_of_circles _ _ 1 circles_after_two_ticks)|].
  split; [done|]. split.
  - intros j cj Hj Hg.
    rewrite (get_of_circles _ _ j circles_after_two_ticks) in Hg.
    destruct j as [|[|j]]; [|done|by destruct j].
    simpl in Hg. injection Hg as <-.
    rewrite getDistance_sym, getDistance_two. simpl. lra.
  - exact (get_of_circles _ _ 1 circles_tick3).
Qed.

(** C2, amended.  The reap phase removes a live body, with its
    [removeChild] and the trash sound, exactly when its flag is set and
    its radius is not positive, and leaves every other body as it is.
    Over a whole tick a body of radius [<= 0] is therefore removed exactly
    when its flag was already set at the start of the tick or it overlaps
    another live body in this tick. *)
Theorem handleDeletions_reaps (s : t) (i : nat) (c : Circle.t) :
  get s i = Some c ->
  (get (handleDeletions s) i = None <->
   Circle.collided c = true /\ r (Circle.info c) <= 0) /\
  (get (handleDeletions s) i = None \/ get (handleDeletions s) i = Some c) /\
  effects (handleDeletions s) =
    effects s ++ concat (slot_effects reap_slot <$> circles s) /\
  slot_effects reap_slot (Some c) =
    (if Circle.collided c && Rleb (r (Circle.info c)) 0
     then [RemoveChild (Circle.html_id c); Play "trash"%string] else []) /\
  (forall W H, r (Circle.info c) <= 0 ->
     (get (loop W H s) i = None <->
      Circle.collided c = true \/
      exists j cj, j <> i /\ get s j = Some cj /\
        getDistance c cj < r (Circle.info c) + r (Circle.info cj))).
Proof.
  intros Hi. rewrite get_handleDeletions, Hi.
  split; [|split; [|split; [|split]]].
  - destruct (Circle.collided c); simpl.
    + destruct (Rleb _ _) eqn:E.
      * apply Rleb_true in E. tauto.
      * apply Rleb_false in E. split; [done|]. intros [_ ?]. lra.
    + split; [done|]. by intros [? _].
  - destruct (_ && _); auto.
  - by rewrite handleDeletions_visit, for_in_visit.
  - simpl. unfold reap_slot. by destruct (_ && _).
  - intros W H Hr. rewrite get_loop, Hi. simpl. unfold tick_slot.
    destruct (flag_if_frame (flagged s i) c) as (_ & _ & -> & ->).
    apply Rleb_true in Hr. rewrite Hr, andb_true_r.
    rewrite <- (flagged_overlap s i c Hi).
    destruct (flagged s i), (Circle.collided c); simpl; split; try done; auto.
    intros [?|?]; done.
Qed.

(** C4, as stated, fails: between the second and the third tick the small
    body is in the array with radius 0. *)
Lemma zero_radius_between_ticks :
  exists c,
    get after_two_ticks 1 = Some c /\ ~ 0 < r (Circle.info c).
Proof.
  exists (at_rest 1 true 0 510 500 0).
  split; [by rewrite (get_of_circles _ _ 1 circles_after_two_ticks)|].
  simpl. lra.
Qed.

(** C4, amended.  Between ticks, in a run whose spawns have positive
    radius and non-negative strength, every live body has radius [>= 0]
    and strength [>= 0]; a body of radius 0 is one that decay has shrunk:
    its flag is set and its strength is 0. *)
Theorem between_ticks_invariant (W0 H0 u1 u2 : R) (ops : list Op)
    (i : nat) (c : Circle.t) :
  Forall spawn_radius_positive ops ->
  Forall spawn_strength_nonneg ops ->
  get (run (new W0 H0 u1 u2) ops) i = Some c ->
  0 <= r (Circle.info c) /\
  (0 <= Circle.strength c)%Z /\
  (r (Circle.info c) = 0 ->
   Circle.collided c = true /\ Circle.strength c = 0%Z).
Proof.
  intros Hwf Hst Hi.
  pose proof (run_strength_nonneg _ _ _ _ _ Hwf Hst i c Hi) as Hnn.
  destruct (run_resting _ _ _ _ _ Hwf i c Hi) as [[Hr|(Hr & Hc & Hs)] _].
  - repeat split; try lra; try done; intros; lra.
  - repeat split; try lra; try done; lia.
Qed.

(** C6.  In a run whose spawns have positive radius, a body removed by a
    tick has no strength left when that tick begins (strength 0 when no
    spawn had negative strength), and an earlier tick of the run took it
    through the decay branch, shrinking its radius. *)
Theorem reaped_after_decay (W0 H0 u1 u2 : R) (ops : list Op) (W H : R)
    (i : nat) (c : Circle.t) :
  Forall spawn_radius_positive ops ->
  get (run (new W0 H0 u1 u2) ops) i = Some c ->
  get (loop W H (run (new W0 H0 u1 u2) ops)) i = None ->
  ~ (0 < Circle.strength c)%Z /\
  (Forall spawn_strength_nonneg ops -> Circle.strength c = 0%Z) /\
  decay_tick (new W0 H0 u1 u2) ops i.
Proof.
  intros Hwf Hi Hl.
  destruct (run_resting _ _ _ _ _ Hwf i c Hi) as [Hrest Hhist].
  assert (Hr : r (Circle.info c) <= 0).
  { rewrite get_loop, Hi in Hl. simpl in Hl. unfold tick_slot in Hl.
    destruct (_ && _) eqn:E; [|done].
    apply andb_true_iff in E as [_ E]. apply Rleb_true in E.
    by destruct (flagged _ i). }
  destruct Hrest as [?|(_ & _ & Hs)]; [lra|].
  split; [lia|]. split.
  - intros Hst.
    pose proof (run_strength_nonneg _ _ _ _ _ Hwf Hst i c Hi). lia.
  - destruct Hhist as [?|?]; [lra|done].
Qed.

End Lifecycle.

(** ** The velocity given at spawn *)

Section SpawnVelocity.
Import PlayGround.
Local Open Scope R_scope.

(** Both components are a draw from [-MAX_VELOCITY, MAX_VELOCITY) divided
    by the square root of the radius. *)
Lemma new_velocity px py rad st id u1 u2 :
  velocity (Circle.info (Circle.new px py rad st id u1 u2).1) =
  mkVelocity
    (Circle.randomNumberBetween (- MAX_VELOCITY) MAX_VELOCITY u1 / sqrt rad)
    (Circle.randomNumberBetween (- MAX_VELOCITY) MAX_VELOCITY u2 / sqrt rad).
Proof. reflexivity. Qed.

Lemma randomNumberBetween_range u :
  0 <= u < 1 ->
  - MAX_VELOCITY <= Circle.randomNumberBetween (- MAX_VELOCITY) MAX_VELOCITY u
    < MAX_VELOCITY.
Proof. unfold Circle.randomNumberBetween, MAX_VELOCITY. intros [? ?]. lra. Qed.

(** For a radius of at least 1 the components stay within the bound. *)
Lemma velocity_bound_from_radius_1 u rad :
  0 <= u < 1 -> 1 <= rad ->
  Rabs (Circle.randomNumberBetween (- MAX_VELOCITY) MAX_VELOCITY u
        / Circle.pow_half rad) <= MAX_VELOCITY.
Proof.
  intros Hu Hrad. apply randomNumberBetween_range in Hu.
  set (a := Circle.randomNumberBetween _ _ _) in *.
  unfold Circle.pow_half.
  assert (Hs : 1 <= sqrt rad).
  { rewrite <- sqrt_1. apply sqrt_le_1; lra. }
  unfold Rdiv. rewrite Rabs_mult, Rabs_inv, (Rabs_right (sqrt rad)) by lra.
  assert (Ha : Rabs a <= MAX_VELOCITY).
  { unfold MAX_VELOCITY in *. apply Rabs_le. lra. }
  assert (Hi : 0 < / sqrt rad <= 1).
  { split; [apply Rinv_0_lt_compat; lra|].
    rewrite <- Rinv_1. apply Rinv_le_contravar; lra. }
  pose proof (Rabs_pos a). unfold MAX_VELOCITY in *. nra.
Qed.

(** C9, on the failing input: a circle of radius 1/4 spawned when
    [Math.random()] returns 0 gets the x velocity -6, twice
    [MAX_VELOCITY] in magnitude. *)
Theorem spawn_velocity_exceeds_max :
  let c := (Circle.new 100 100 (1 / 4) 1 0 0 0).1 in
  x (velocity (Circle.info c)) =
    Circle.randomNumberBetween (- MAX_VELOCITY) MAX_VELOCITY 0 / sqrt (1 / 4) /\
  x (velocity (Circle.info c)) = -6 /\
  MAX_VELOCITY < Rabs (x (velocity (Circle.info c))).
Proof.
  cbv zeta. rewrite new_velocity. simpl.
  assert (Hs : sqrt (1 / 4) = 1 / 2) by (apply sqrt_of_square; lra).
  assert (Hv : Circle.randomNumberBetween (- MAX_VELOCITY) MAX_VELOCITY 0
               / sqrt (1 / 4) = -6).
  { rewrite Hs. unfold Circle.randomNumberBetween, MAX_VELOCITY. lra. }
  split; [done|]. split; [done|].
  rewrite Hv. unfold MAX_VELOCITY. rewrite Rabs_left; lra.
Qed.

End SpawnVelocity.

(** ** Instances *)

Section Instances.
Import PlayGround.
Local Open Scope R_scope.

Lemma checkForBallCollisions_flags_witness :
  exists c',
    get (checkForBallCollisions two_bodies) 0 = Some c' /\
    c' = Circle.set_collided (Circle.collided c') (at_rest 0 false 1 500 500 10) /\
    (Circle.collided c' = true <->
     Circle.collided (at_rest 0 false 1 500 500 10) = true \/
     exists j cj, j <> 0%nat /\ get two_bodies j = Some cj /\
       sqrt ((cx (Circle.info (at_rest 0 false 1 500 500 10)) - cx (Circle.info cj)) ^ 2
             + (cy (Circle.info (at_rest 0 false 1 500 500 10)) - cy (Circle.info cj)) ^ 2)
       < r (Circle.info (at_rest 0 false 1 500 500 10)) + r (Circle.info cj)).
Proof.
  apply (checkForBallCollisions_flags two_bodies 0).
  exact (get_of_circles _ _ 0 circles_two_bodies).
Defined.

Lemma get_detection_two_bodies_0 :
  get (checkForBallCollisions two_bodies) 0 = Some (at_rest 0 true 1 500 500 10).
Proof.
  rewrite get_checkForBallCollisions.
  rewrite (get_of_circles _ _ 0 circles_two_bodies). simpl.
  rewrite (flagged_pair _ _ _ 0 circles_two_bodies) by lia.
  rewrite getDistance_two. simpl.
  by rewrite (Rltb_yes 10 (10 + 1)) by lra.
Qed.

Lemma loop_phase_order_witness :
  Circle.strength (at_rest 0 false 0 500 500 10) =
    (Circle.strength (at_rest 0 false 1 500 500 10) - 1)%Z /\
  Circle.collided (at_rest 0 false 0 500 500 10) = false /\
  r (Circle.info (at_rest 0 false 0 500 500 10)) =
    r (Circle.info (at_rest 0 false 1 500 500 10)).
Proof.
  destruct (loop_phase_order 1000 1000 two_bodies)
    as (_ & _ & _ & _ & _ & _ & _ & Hslot).
  destruct (Hslot 0%nat (at_rest 0 false 1 500 500 10)
                  (at_rest 0 true 1 500 500 10) (at_rest 0 false 0 500 500 10))
    as (_ & _ & _ & _ & Hdamage & _).
  - exact (get_of_circles _ _ 0 circles_two_bodies).
  - exact get_detection_two_bodies_0.
  - exact (get_of_circles _ _ 0 circles_tick1).
  - apply Hdamage; [reflexivity|simpl; lia].
Defined.

Lemma handleDeletions_reaps_witness :
  get (handleDeletions after_two_ticks) 1 = None <->
  Circle.collided (at_rest 1 true 0 510 500 0) = true /\
  r (Circle.info (at_rest 1 true 0 510 500 0)) <= 0.
Proof.
  apply (handleDeletions_reaps after_two_ticks 1).
  exact (get_of_circles _ _ 1 circles_after_two_ticks).
Defined.

Lemma strength_per_tick_witness :
  exists cu,
    get (checkForCollisions 1000 1000 two_bodies) 0 = Some cu /\
    at_rest 0 false 0 500 500 10 = (Circle.update 1 cu).1 /\
    Circle.strength cu = 1%Z /\
    (Circle.strength (at_rest 0 false 0 500 500 10) <= 1)%Z /\
    (Circle.collided cu = true /\ (0 < Circle.strength cu)%Z ->
     Circle.strength (at_rest 0 false 0 500 500 10) = (1 - 1)%Z /\
     Circle.collided (at_rest 0 false 0 500 500 10) = false) /\
    (~ (Circle.collided cu = true /\ (0 < Circle.strength cu)%Z) ->
     Circle.strength (at_rest 0 false 0 500 500 10) = 1%Z).
Proof.
  apply (strength_per_tick 1000 1000 two_bodies 0
           (at_rest 0 false 1 500 500 10) (at_rest 0 false 0 500 500 10)).
  - exact (get_of_circles _ _ 0 circles_two_bodies).
  - exact (get_of_circles _ _ 0 circles_tick1).
Defined.

Lemma between_ticks_invariant_witness :
  0 <= r (Circle.info (at_rest 1 true 0 510 500 0)) /\
  (0 <= Circle.strength (at_rest 1 true 0 510 500 0))%Z /\
  (r (Circle.info (at_rest 1 true 0 510 500 0)) = 0 ->
   Circle.collided (at_rest 1 true 0 510 500 0) = true /\
   Circle.strength (at_rest 1 true 0 510 500 0) = 0%Z).
Proof.
  apply (between_ticks_invariant 1000 1000 (1 / 2) (1 / 2)
           [Spawn 510 500 1 1 (1 / 2) (1 / 2); Tick 1000 1000; Tick 1000 1000] 1).
  - apply two_bodies_spawns.
  - apply two_bodies_spawns.
  - exact (get_of_circles _ _ 1 circles_after_two_ticks).
Defined.

Lemma reaped_after_decay_witness :
  ~ (0 < Circle.strength (at_rest 1 true 0 510 500 0))%Z /\
  (Forall spawn_strength_nonneg
     [Spawn 510 500 1 1 (1 / 2) (1 / 2); Tick 1000 1000; Tick 1000 1000] ->
   Circle.strength (at_rest 1 true 0 510 500 0) = 0%Z) /\
  decay_tick (new 1000 1000 (1 / 2) (1 / 2))
    [Spawn 510 500 1 1 (1 / 2) (1 / 2); Tick 1000 1000; Tick 1000 1000] 1.
Proof.
  apply (reaped_after_decay 1000 1000 (1 / 2) (1 / 2)
           [Spawn 510 500 1 1 (1 / 2) (1 / 2); Tick 1000 1000; Tick 1000 1000]
           1000 1000 1).
  - apply two_bodies_spawns.
  - exact (get_of_circles _ _ 1 circles_after_two_ticks).
  - exact (get_of_circles _ _ 1 circles_tick3).
Defined.

Lemma checkForWallCollisions_right_edge_witness :
  exists c',
    get (checkForWallCollisions 100 100 past_right_edge) 0 = Some c' /\
    c' = Circle.checkForWallCollision 100 100
           (Circle.mk 0 false 1 (mkInfo 95 50 10 (mkVelocity 2 0))) /\
    x (velocity (Circle.info c')) <= 0.
Proof.
  apply (checkForWallCollisions_right_edge 100 100 past_right_edge 0).
  - reflexivity.
  - simpl. lra.
Defined.

End Instances.

(** * Further properties of the program *)

(** ** The timer *)

Section Timer.
Import HighResTimer.

Lemma scan_Some perf l p :
  scan perf l = Some p ->
  is_Some (perf (p ++ "Now")%string) /\
  exists l1 l2, l = l1 ++ p :: l2 /\
    forall q, q ∈ l1 -> perf (q ++ "Now")%string = None.
Proof.
  induction l as [|q l IH]; simpl; [done|].
  destruct (perf (q ++ "Now")%string) as [t0|] eqn:E.
  - intros [= <-]. split; [by rewrite E|].
    exists [], l. split; [done|]. intros q' Hq'. by apply elem_of_nil in Hq'.
  - intros Hs. destruct (IH Hs) as (Hp & l1 & l2 & -> & Hl1).
    split; [done|]. exists (q :: l1), l2. split; [done|].
    intros q' Hq'. apply elem_of_cons in Hq' as [->|Hq']; auto.
Qed.

Lemma scan_None perf l :
  scan perf l = None -> forall q, q ∈ l -> perf (q ++ "Now")%string = None.
Proof.
  induction l as [|q l IH]; simpl.
  - intros _ q' Hq'. by apply elem_of_nil in Hq'.
  - destruct (perf (q ++ "Now")%string) eqn:E; [done|].
    intros Hs q' Hq'. apply elem_of_cons in Hq' as [->|Hq']; auto.
Qed.

(** The constructor settles on one of three modes.  Native exactly when
    [performance.now] is defined; prefixed exactly when it is not and some
    [webkitNow], [mozNow], [msNow], [oNow] is, and then the stored prefix
    is the first one of that order that is defined; otherwise neither
    flag is set and no prefix is stored. *)
Theorem HighResTimer_new_modes (w : Window) :
  let tm := new w in
  (hrNativeSppt tm = true <->
   exists perf, performance w = Some perf /\ is_Some (perf "now"%string)) /\
  (hrNativeSppt tm = true -> hrSupport tm = false) /\
  (hrSupport tm = true ->
   exists perf p l1 l2,
     performance w = Some perf /\ perf "now"%string = None /\
     hrSpptPrefix tm = Some p /\ browserPrefixes = l1 ++ p :: l2 /\
     is_Some (perf (p ++ "Now")%string) /\
     forall q, q ∈ l1 -> perf (q ++ "Now")%string = None) /\
  (hrNativeSppt tm = false -> hrSupport tm = false ->
   hrSpptPrefix tm = None /\
   forall perf, performance w = Some perf ->
     perf "now"%string = None /\
     forall q, q ∈ browserPrefixes -> perf (q ++ "Now")%string = None).
Proof.
  unfold new. destruct (performance w) as [perf|] eqn:Ew.
  - destruct (perf "now"%string) as [t0|] eqn:En.
    + simpl. split; [|split; [|split]]; try done.
      split; [|done]. intros _. exists perf. by rewrite En.
    + destruct (scan perf browserPrefixes) as [p|] eqn:Es; simpl.
      * split; [|split; [|split]]; try done.
        -- split; [done|]. intros (perf' & [= <-] & Hn). rewrite En in Hn.
           by destruct Hn.
        -- intros _. destruct (scan_Some _ _ _ Es) as (Hp & l1 & l2 & Hl & Hl1).
           by exists perf, p, l1, l2.
      * split; [|split; [|split]]; try done.
        -- split; [done|]. intros (perf' & [= <-] & Hn). rewrite En in Hn.
           by destruct Hn.
        -- intros _ _. split; [done|]. intros perf' [= <-]. split; [done|].
           by apply scan_None.
  - simpl. split; [|split; [|split]]; try done.
    split; [done|]. by intros (perf' & ? & _).
Qed.

(** A timer reads without an exception on every later state of the window
    it was built on (the same properties of [performance] defined): the
    native clock when there is one, else the first prefixed clock, else
    the date. *)
Theorem hrGetTime_defined (w w' : Window) :
  same_shape w w' ->
  exists t,
    hrGetTime (new w) w' = Some t /\
    (forall perf', performance w' = Some perf' ->
       forall t0, perf' "now"%string = Some t0 -> t = t0) /\
    (hrSupport (new w) = true ->
     exists perf' p, performance w' = Some perf' /\
       hrSpptPrefix (new w) = Some p /\ perf' (p ++ "Now")%string = Some t) /\
    (hrNativeSppt (new w) = false -> hrSupport (new w) = false ->
     t = date_getTime w').
Proof.
  unfold same_shape, hrGetTime, new.
  destruct (performance w) as [perf|] eqn:Ew,
           (performance w') as [perf'|] eqn:Ew'; try done.
  - intros Hsh. destruct (perf "now"%string) as [t0|] eqn:En.
    + simpl. destruct (proj1 (Hsh "now"%string)) as [t1 Ht1]; [by rewrite En|].
      exists t1. rewrite Ht1. split; [done|]. split; [|split]; try done.
      intros p' [= <-] t2. rewrite Ht1. by intros [= <-].
    + assert (En' : perf' "now"%string = None).
      { destruct (perf' "now"%string) eqn:E; [|done].
        destruct (proj2 (Hsh "now"%string)) as [? Hx]; [by rewrite E|].
        by rewrite En in Hx. }
      destruct (scan perf browserPrefixes) as [p|] eqn:Es; simpl.
      * destruct (scan_Some _ _ _ Es) as (Hp & _).
        apply Hsh in Hp as [t1 Ht1]. unfold prefixedNow. simpl.
        exists t1. rewrite Ht1. split; [done|]. split; [|split]; try done.
        -- intros p' [= <-] t2. by rewrite En'.
        -- intros _. by exists perf', p.
      * exists (date_getTime w'). split; [done|]. split; [|split]; try done.
        intros p' [= <-] t2. by rewrite En'.
  - intros _. simpl. exists (date_getTime w'). by repeat split.
Qed.

Lemma moz_browser_same_shape a b c a' b' c' :
  same_shape (moz_browser a b c) (moz_browser a' b' c').
Proof.
  unfold same_shape, moz_browser. simpl. intros name.
  destruct (String.eqb name "mozNow"); [by split; eauto|].
  destruct (String.eqb name "msNow"); by split; eauto.
Qed.

Lemma hrGetTime_defined_witness :
  exists t,
    hrGetTime (new (moz_browser 10 11 12)) (moz_browser 20 21 22) = Some t /\
    (forall perf', performance (moz_browser 20 21 22) = Some perf' ->
       forall t0, perf' "now"%string = Some t0 -> t = t0) /\
    (hrSupport (new (moz_browser 10 11 12)) = true ->
     exists perf' p, performance (moz_browser 20 21 22) = Some perf' /\
       hrSpptPrefix (new (moz_browser 10 11 12)) = Some p /\
       perf' (p ++ "Now")%string = Some t) /\
    (hrNativeSppt (new (moz_browser 10 11 12)) = false ->
     hrSupport (new (moz_browser 10 11 12)) = false ->
     t = date_getTime (moz_browser 20 21 22)).
Proof.
  apply (hrGetTime_defined (moz_browser 10 11 12) (moz_browser 20 21 22)).
  apply moz_browser_same_shape.
Defined.

End Timer.

(** ** From a mouse press to a circle *)

Section Press.
Import PlayGround.
Local Open Scope R_scope.

Example moz_timer_reads_mozNow :
  HighResTimer.hrGetTime (HighResTimer.new (moz_browser 10 11 12))
                         (moz_browser 20 21 22) = Some 20.
Proof. reflexivity. Qed.

Lemma land_1_odd b : Z.land b 1 = Z.b2z (Z.odd b).
Proof.
  change 1%Z with (Z.ones 1). rewrite Z.land_ones by lia.
  rewrite <- Z.bit0_odd. symmetry. apply Z.bit0_mod.
Qed.

Lemma getClickType_range evt : (0 <= getClickType evt <= 15)%Z.
Proof.
  unfold getClickType. rewrite land_1_odd.
  destruct (Z.odd (MouseEvent.button evt)), (MouseEvent.altKey evt),
           (MouseEvent.ctrlKey evt), (MouseEvent.shiftKey evt);
    rewrite !Z.shiftl_mul_pow2 by lia; simpl Z.b2z; lia.
Qed.

(** The strength of a click is a number from 0 to 15 whose four bits are,
    from the top, "odd button", alt, ctrl and shift; it is 0 exactly for
    a click with an even button (the left one) and no modifier key. *)
Theorem getClickType_bits (evt : MouseEvent.t) :
  (0 <= getClickType evt <= 15)%Z /\
  Z.testbit (getClickType evt) 3 = Z.odd (MouseEvent.button evt) /\
  Z.testbit (getClickType evt) 2 = MouseEvent.altKey evt /\
  Z.testbit (getClickType evt) 1 = MouseEvent.ctrlKey evt /\
  Z.testbit (getClickType evt) 0 = MouseEvent.shiftKey evt /\
  (getClickType evt = 0%Z <->
   Z.odd (MouseEvent.button evt) = false /\ MouseEvent.altKey evt = false /\
   MouseEvent.ctrlKey evt = false /\ MouseEvent.shiftKey evt = false).
Proof.
  unfold getClickType. rewrite land_1_odd.
  destruct (Z.odd (MouseEvent.button evt)), (MouseEvent.altKey evt),
           (MouseEvent.ctrlKey evt), (MouseEvent.shiftKey evt);
    (split; [rewrite !Z.shiftl_mul_pow2 by lia; simpl Z.b2z; lia|]);
    repeat split; try reflexivity;
    try (intros H; vm_compute in H; discriminate H);
    try (intros (? & ? & ? & ?); discriminate);
    try (match goal with
         | H : _ = 0%Z |- _ => vm_compute in H; discriminate H
         end).
Qed.

Lemma Rpower_1_l c : Rpower 1 c = 1.
Proof. unfold Rpower. by rewrite ln_1, Rmult_0_r, exp_0. Qed.

Lemma scaling_factor_pos : 0 < DURATION_RADIUS_SCALING_FACTOR.
Proof. unfold DURATION_RADIUS_SCALING_FACTOR. lra. Qed.

Lemma pow_duration_pos d :
  0 < d ->
  pow_duration d = Some (Rpower d DURATION_RADIUS_SCALING_FACTOR) /\
  0 < Rpower d DURATION_RADIUS_SCALING_FACTOR /\
  (1 <= d <-> 1 <= Rpower d DURATION_RADIUS_SCALING_FACTOR).
Proof.
  intros Hd. unfold pow_duration. destruct (Rlt_dec 0 d); [|done].
  split; [done|]. split; [apply exp_pos|].
  pose proof scaling_factor_pos as Hc. split.
  - intros H1. rewrite <- (Rpower_1_l DURATION_RADIUS_SCALING_FACTOR) at 1.
    apply Rle_Rpower_l; lra.
  - intros H1. destruct (Rle_dec 1 d) as [|Hn]; [done|]. exfalso.
    assert (Hlt : Rpower d DURATION_RADIUS_SCALING_FACTOR
                  < Rpower 1 DURATION_RADIUS_SCALING_FACTOR)
      by (apply Rlt_Rpower_l; lra).
    rewrite Rpower_1_l in Hlt. lra.
Qed.

Lemma velocity_bound_component u rad :
  0 <= u < 1 -> 1 <= rad ->
  Rabs (Circle.randomNumberBetween (- MAX_VELOCITY) MAX_VELOCITY u / sqrt rad)
  <= MAX_VELOCITY.
Proof. apply velocity_bound_from_radius_1. Qed.

(** A press (mouse down at [t0], mouse up at [t1 > t0]) appends one live
    circle to the playground, at the position of the mouse-up event, with
    the next id, a positive radius, a strength from 0 to 15 and a clear
    flag, and leaves the other circles alone; when the press lasts at
    least a millisecond the velocity components are within
    [MAX_VELOCITY]. *)
Theorem press_spawns_circle (t0 t1 : R) (evt : MouseEvent.t) (u1 u2 : R) (p : Page.t) :
  t0 < t1 ->
  exists p' c,
    Page.onmouseup t1 evt u1 u2 (Page.onmousedown t0 p) = p' /\
    circles (Page.playground p') = circles (Page.playground p) ++ [Some c] /\
    counter (Page.playground p') = S (counter (Page.playground p)) /\
    Circle.html_id c = counter (Page.playground p) /\
    Circle.collided c = false /\
    (0 <= Circle.strength c <= 15)%Z /\
    cx (Circle.info c) = MouseEvent.x evt /\
    cy (Circle.info c) = MouseEvent.y evt /\
    0 < r (Circle.info c) /\
    (1 <= t1 - t0 <-> 1 <= r (Circle.info c)) /\
    (1 <= t1 - t0 -> 0 <= u1 < 1 -> 0 <= u2 < 1 ->
     Rabs (x (velocity (Circle.info c))) <= MAX_VELOCITY /\
     Rabs (y (velocity (Circle.info c))) <= MAX_VELOCITY).
Proof.
  intros Ht. unfold Page.onmouseup, Page.onmousedown. simpl.
  destruct (pow_duration_pos (t1 - t0)) as (E & Hp & H1); [lra|].
  rewrite E. eexists. eexists. split; [reflexivity|].
  unfold createNewCircle. simpl.
  split; [reflexivity|]. split; [done|]. split; [done|]. split; [done|].
  split; [apply getClickType_range|]. split; [done|]. split; [done|].
  split; [done|]. split; [done|].
  intros Hd Hu1 Hu2. apply H1 in Hd.
  split; by apply velocity_bound_component.
Qed.

End Press.

(** ** The array, the ids and the children of the svg element *)

Section Array.
Import PlayGround.
Local Open Scope R_scope.

Lemma counter_loop W H s : counter (loop W H s) = counter s.
Proof.
  unfold loop, checkForCollisions.
  rewrite updatePositions_visit, counter_for_in_visit.
  rewrite checkForWallCollisions_visit, counter_for_in_visit.
  rewrite handleDeletions_visit, counter_for_in_visit.
  apply same_frame_checkForBallCollisions.
Qed.

Lemma tick_slot_html_id W H b c c' :
  tick_slot W H (flag_if b c) = Some c' -> Circle.html_id c' = Circle.html_id c.
Proof.
  unfold tick_slot. destruct (_ && _); [done|]. intros [= <-].
  rewrite update_html_id.
  destruct (checkForWallCollision_frame W H (flag_if b c)) as (-> & _).
  by destruct b.
Qed.

Lemma get_loop_Some W H s i c' :
  get (loop W H s) i = Some c' ->
  exists c, get s i = Some c /\ tick_slot W H (flag_if (flagged s i) c) = Some c'.
Proof.
  rewrite get_loop. destruct (get s i) as [c|]; [|done]. simpl. eauto.
Qed.

Lemma ids_ok_new W H u1 u2 : ids_ok (new W H u1 u2).
Proof.
  split; [done|]. intros i c Hi.
  apply get_createNewCircle in Hi as [Hi|[-> ->]]; [done|]. done.
Qed.

Lemma ids_ok_step s o : ids_ok s -> ids_ok (step s o).
Proof.
  intros [Hc Hid]. destruct o as [px py rad st v1 v2|W H]; simpl.
  - split.
    + unfold createNewCircle. simpl. rewrite length_app. simpl. lia.
    + intros i c Hi. apply get_createNewCircle in Hi as [Hi|[-> ->]]; [auto|].
      simpl. done.
  - split.
    + by rewrite counter_loop, length_loop.
    + intros i c' Hi. apply get_loop_Some in Hi as (c & Hc0 & Ht).
      apply tick_slot_html_id in Ht. rewrite Ht. auto.
Qed.

Lemma ids_ok_run s ops : ids_ok s -> ids_ok (run s ops).
Proof.
  revert s. induction ops as [|o ops IH]; intros s Hs; [done|].
  apply IH. by apply ids_ok_step.
Qed.

(** In every run of a fresh playground the counter equals the length of
    the array and a live circle has the index of its slot as id: ids are
    pairwise different and the id of a removed circle is not given out
    again. *)
Theorem run_ids (W0 H0 u1 u2 : R) (ops : list Op) :
  let s := run (new W0 H0 u1 u2) ops in
  counter s = length (circles s) /\
  (forall i c, get s i = Some c -> Circle.html_id c = i) /\
  (forall i j ci cj, get s i = Some ci -> get s j = Some cj ->
     Circle.html_id ci = Circle.html_id cj -> i = j).
Proof.
  destruct (ids_ok_run _ ops (ids_ok_new W0 H0 u1 u2)) as [Hc Hid].
  split; [done|]. split; [done|].
  intros i j ci cj Hi Hj E. apply Hid in Hi, Hj. congruence.
Qed.

Lemma length_step s o :
  length (circles (step s o)) =
  (length (circles s) + spawns [o])%nat.
Proof.
  destruct o; simpl.
  - unfold createNewCircle. simpl. rewrite length_app. simpl. lia.
  - rewrite length_loop. lia.
Qed.

Lemma circles_loop_lookup W H s i :
  circles (loop W H s) !! i =
  (fun oc => (flag_if (flagged s i) <$> oc) ≫= tick_slot W H) <$> circles s !! i.
Proof.
  rewrite circles_loop, list_lookup_fmap, list_lookup_imap.
  by destruct (circles s !! i).
Qed.

Lemma hole_step s o i :
  circles s !! i = Some None -> circles (step s o) !! i = Some None.
Proof.
  intros Hi. destruct o; simpl.
  - unfold createNewCircle. simpl. rewrite lookup_app_l; [done|].
    by eapply lookup_lt_Some.
  - by rewrite circles_loop_lookup, Hi.
Qed.

Lemma hole_run s ops i :
  circles s !! i = Some None -> circles (run s ops) !! i = Some None.
Proof.
  revert s. induction ops as [|o ops IH]; intros s Hs; [done|].
  apply IH. by apply hole_step.
Qed.

Lemma length_run s ops :
  length (circles (run s ops)) = (length (circles s) + spawns ops)%nat.
Proof.
  revert s. induction ops as [|o ops IH]; intros s; simpl; [lia|].
  change (run s (o :: ops)) with (run (step s o) ops).
  rewrite IH, length_step. destruct o; simpl; lia.
Qed.

(** The array only grows: after a run its length is the old length plus
    the number of spawns (a tick never changes it), and the slot of a
    removed circle stays empty for good. *)
Theorem array_grows_only (s : t) (ops : list Op) :
  length (circles (run s ops)) = (length (circles s) + spawns ops)%nat /\
  (forall i, circles s !! i = Some None -> circles (run s ops) !! i = Some None) /\
  (forall i c W H, get s i = Some c -> get (loop W H s) i = None ->
     get (run (loop W H s) ops) i = None).
Proof.
  split; [apply length_run|]. split; [intros; by apply hole_run|].
  intros i c W H Hi Hl.
  assert (Hh : circles (loop W H s) !! i = Some None).
  { pose proof (get_Some_lt _ _ _ Hi) as Hlt.
    rewrite <- (length_loop W H) in Hlt.
    destruct (lookup_lt_is_Some_2 _ _ Hlt) as [oc Hoc].
    unfold get in Hl. rewrite Hoc in Hl. destruct oc; [done|]. done. }
  unfold get. by rewrite (hole_run _ ops _ Hh).
Qed.

End Array.

(** ** The svg element follows the live circles *)

Section Dom.
Import PlayGround.
Local Open Scope R_scope.

Lemma dom_replay_app children es1 es2 :
  dom_replay children (es1 ++ es2) =
  dom_replay children es1 ≫= fun children' => dom_replay children' es2.
Proof.
  revert children. induction es1 as [|e es1 IH]; intros children; [done|].
  destruct e as [id|id|clip]; simpl; auto.
  destruct (remove_first id children); simpl; auto.
Qed.

Lemma remove_first_middle id pre rest :
  id ∉ pre -> remove_first id (pre ++ id :: rest) = Some (pre ++ rest).
Proof.
  induction pre as [|k pre IH]; simpl; intros Hn.
  - by rewrite Nat.eqb_refl.
  - apply not_elem_of_cons in Hn as [Hne Hn].
    assert ((k =? id)%nat = false) as -> by (apply Nat.eqb_neq; congruence).
    by rewrite IH.
Qed.

Lemma live_ids_snoc cs c : live_ids (cs ++ [Some c]) = live_ids cs ++ [Circle.html_id c].
Proof. unfold live_ids. by rewrite omap_app. Qed.

Lemma live_ids_fmap (f : option Circle.t -> option Circle.t) cs :
  (forall oc, Circle.html_id <$> f oc = Circle.html_id <$> oc) ->
  live_ids (f <$> cs) = live_ids cs.
Proof.
  intros Hf. unfold live_ids. induction cs as [|oc cs IH]; [done|].
  pose proof (Hf oc) as E.
  simpl. destruct (f oc) as [c'|], oc as [c|]; simpl in E |- *; try done;
    try (injection E as ->; f_equal; apply IH); try apply IH.
Qed.

Lemma live_ids_imap (f : nat -> option Circle.t -> option Circle.t) cs :
  (forall j oc, Circle.html_id <$> f j oc = Circle.html_id <$> oc) ->
  live_ids (imap f cs) = live_ids cs.
Proof.
  intros Hf. unfold live_ids. revert f Hf.
  induction cs as [|oc cs IH]; intros f Hf; [done|].
  rewrite imap_cons. pose proof (Hf 0%nat oc) as E.
  assert (IH' := IH (f ∘ S) (fun j oc' => Hf (S j) oc')).
  simpl. destruct (f 0%nat oc) as [c'|], oc as [c|]; simpl in E |- *; try done;
    try (injection E as ->; f_equal; apply IH'); try apply IH'.
Qed.

Lemma live_ids_elem cs id :
  id ∈ live_ids cs -> exists i c, cs !! i = Some (Some c) /\ Circle.html_id c = id.
Proof.
  unfold live_ids. rewrite list_elem_of_omap. intros (oc & Hin & Hid).
  destruct oc as [c|]; [|done]. injection Hid as <-.
  apply list_elem_of_lookup in Hin as [i Hi]. by exists i, c.
Qed.

Lemma live_ids_NoDup cs :
  (forall i c, cs !! i = Some (Some c) -> Circle.html_id c = i) ->
  NoDup (live_ids cs).
Proof.
  induction cs as [|oc cs IH] using rev_ind; intros Hid.
  - constructor.
  - assert (Hcs : forall i c, cs !! i = Some (Some c) -> Circle.html_id c = i).
    { intros i c Hi. apply Hid. rewrite lookup_app_l; [done|].
      by eapply lookup_lt_Some. }
    destruct oc as [c|].
    + rewrite live_ids_snoc. apply NoDup_app. split; [auto|]. split.
      * intros id Hin Hc. apply list_elem_of_singleton in Hc.
        apply live_ids_elem in Hin as (i & c' & Hi & Hid').
        pose proof (lookup_lt_Some _ _ _ Hi) as Hlt.
        apply Hcs in Hi.
        assert (Circle.html_id c = length cs).
        { apply Hid. rewrite lookup_app_r by lia.
          by rewrite Nat.sub_diag. }
        lia.
      * apply NoDup_singleton.
    + unfold live_ids. rewrite omap_app. simpl. rewrite app_nil_r. auto.
Qed.

(** Replaying the effects of the reap phase takes out of the children
    exactly the ids of the circles it removes. *)
Lemma dom_replay_reap pre cs :
  NoDup (pre ++ live_ids cs) ->
  dom_replay (pre ++ live_ids cs) (concat (slot_effects reap_slot <$> cs)) =
  Some (pre ++ live_ids (slot_after reap_slot <$> cs)).
Proof.
  revert pre. induction cs as [|oc cs IH]; intros pre Hnd; [done|].
  destruct oc as [c|]; [|apply IH, Hnd].
  change (live_ids (Some c :: cs)) with (Circle.html_id c :: live_ids cs) in *.
  simpl. unfold reap_slot at 1 3.
  destruct (Circle.collided c && Rleb (r (Circle.info c)) 0); simpl.
  - rewrite remove_first_middle.
    + apply IH. apply NoDup_app in Hnd as (Hp & Hd & Hl).
      apply NoDup_cons in Hl as [_ Hl]. apply NoDup_app. split; [done|].
      split; [|done]. intros id Hin Hin'. apply (Hd id Hin). by right.
    + apply NoDup_app in Hnd as (_ & Hd & _). intros Hin.
      apply (Hd _ Hin). by left.
  - change (live_ids (Some c :: (slot_after reap_slot <$> cs)))
      with (Circle.html_id c :: live_ids (slot_after reap_slot <$> cs)).
    specialize (IH (pre ++ [Circle.html_id c])).
    rewrite <- !app_assoc in IH. apply IH. exact Hnd.
Qed.

Lemma dom_replay_update children cs :
  dom_replay children (concat (slot_effects update_slot <$> cs)) = Some children.
Proof.
  induction cs as [|oc cs IH]; [done|]. simpl.
  rewrite dom_replay_app. destruct oc as [c|]; simpl; [|done].
  rewrite update_effects. by destruct (damaged c).
Qed.

Lemma loop_phases W H s :
  loop W H s =
  mk (counter s)
     (slot_after update_slot <$>
        (slot_after (wall_slot W H) <$>
           (slot_after reap_slot <$> circles (checkForBallCollisions s))))
     (effects s
      ++ concat (slot_effects reap_slot <$> circles (checkForBallCollisions s))
      ++ concat (slot_effects update_slot <$>
                   (slot_after (wall_slot W H) <$>
                      (slot_after reap_slot <$> circles (checkForBallCollisions s))))).
Proof.
  unfold loop, checkForCollisions.
  rewrite updatePositions_visit, for_in_visit. simpl.
  rewrite checkForWallCollisions_visit, for_in_visit. simpl.
  rewrite handleDeletions_visit, for_in_visit. simpl.
  destruct (same_frame_checkForBallCollisions s) as (-> & -> & _).
  f_equal. rewrite <- !app_assoc. do 2 f_equal.
  assert (E : forall l, concat (slot_effects (wall_slot W H) <$> l) = []).
  { induction l as [|[c|] l IH]; simpl; done. }
  by rewrite E.
Qed.

Lemma ids_ok_lookup s i c :
  ids_ok s -> circles s !! i = Some (Some c) -> Circle.html_id c = i.
Proof. intros [_ Hid] Hi. apply Hid. unfold get. by rewrite Hi. Qed.

Lemma dom_step s o :
  ids_ok s ->
  dom_replay [] (effects s) = Some (live_ids (circles s)) ->
  dom_replay [] (effects (step s o)) = Some (live_ids (circles (step s o))).
Proof.
  intros Hok Hdom. destruct o as [px py rad st v1 v2|W H]; simpl.
  - unfold createNewCircle. simpl.
    rewrite dom_replay_app, Hdom. simpl. by rewrite live_ids_snoc.
  - set (cd := circles (checkForBallCollisions s)).
    assert (Hcd : live_ids cd = live_ids (circles s)).
    { unfold cd. rewrite checkForBallCollisions_closed. simpl.
      apply live_ids_imap. intros j [c|]; simpl; [|done].
      by destruct (flagged s j). }
    assert (Hreap : dom_replay (live_ids (circles s))
                      (concat (slot_effects reap_slot <$> cd)) =
                    Some (live_ids (slot_after reap_slot <$> cd))).
    { rewrite <- Hcd. apply (dom_replay_reap [] cd). simpl. rewrite Hcd.
      apply live_ids_NoDup. intros i c. by apply ids_ok_lookup. }
    assert (Hlive : live_ids (circles (loop W H s)) =
                    live_ids (slot_after reap_slot <$> cd)).
    { rewrite loop_phases. cbn [circles]. fold cd.
      rewrite live_ids_fmap; [rewrite live_ids_fmap; [done|]|].
      all: intros [c|]; simpl; [|done].
      all: first [ done | by rewrite update_html_id ]. }
    rewrite Hlive. rewrite loop_phases. cbn [effects]. fold cd.
    rewrite dom_replay_app, Hdom. cbn [mbind option_bind].
    rewrite dom_replay_app, Hreap. cbn [mbind option_bind].
    apply dom_replay_update.
Qed.

(** In every run of a fresh playground the document never throws: each
    [removeChild] finds its element, and after the run the children of
    the svg element are exactly the live circles, in the order of the
    array. *)
Theorem svg_children_are_live_circles (W0 H0 u1 u2 : R) (ops : list Op) :
  dom_replay [] (effects (run (new W0 H0 u1 u2) ops)) =
  Some (live_ids (circles (run (new W0 H0 u1 u2) ops))).
Proof.
  assert (G : forall s, ids_ok s ->
            dom_replay [] (effects s) = Some (live_ids (circles s)) ->
            dom_replay [] (effects (run s ops)) =
            Some (live_ids (circles (run s ops)))).
  { induction ops as [|o ops IH]; intros s Hok Hdom; [done|].
    apply (IH (step s o)); [by apply ids_ok_step|by apply dom_step]. }
  apply G; [apply ids_ok_new|]. reflexivity.
Qed.

End Dom.

(** ** The life of one circle over a run *)

Section Life.
Import PlayGround.
Local Open Scope R_scope.

Lemma update_velocity time c :
  velocity (Circle.info (Circle.update time c).1) = velocity (Circle.info c).
Proof.
  unfold Circle.update. simpl.
  by destruct (Circle.collided c), (0 <? Circle.strength c)%Z.
Qed.

Lemma checkForWallCollision_speed W H c :
  Rabs (x (velocity (Circle.info (Circle.checkForWallCollision W H c)))) =
    Rabs (x (velocity (Circle.info c))) /\
  Rabs (y (velocity (Circle.info (Circle.checkForWallCollision W H c)))) =
    Rabs (y (velocity (Circle.info c))).
Proof.
  rewrite checkForWallCollision_x, checkForWallCollision_y.
  split; case_Rltb; by rewrite ?Rabs_Ropp, ?Rabs_Rabsolu.
Qed.

Lemma worn_refl c : worn c c.
Proof. unfold worn. repeat split; try lia; try lra; done. Qed.

Lemma worn_trans c1 c2 c3 : worn c1 c2 -> worn c2 c3 -> worn c1 c3.
Proof.
  unfold worn. intros (?&?&?&?&?) (?&?&?&?&?).
  repeat split; try lia; try lra; congruence.
Qed.

Lemma tick_slot_worn W H b c c' :
  tick_slot W H (flag_if b c) = Some c' -> worn c c'.
Proof.
  unfold tick_slot.
  destruct (flag_if_frame b c) as (Hid & Hst & Hinf & Hfl).
  rewrite Hinf, Hfl.
  destruct ((b || Circle.collided c) && Rleb (r (Circle.info c)) 0) eqn:E; [done|].
  intros [= <-].
  destruct (checkForWallCollision_frame W H (flag_if b c))
    as (Hwi & Hwf & Hws & _ & _ & Hwr).
  destruct (checkForWallCollision_speed W H (flag_if b c)) as (Hvx & Hvy).
  unfold worn.
  rewrite update_html_id, update_strength, update_r, update_velocity.
  unfold damaged, decays. rewrite Hwi, Hwf, Hws, Hwr, Hvx, Hvy, Hid, Hst, Hinf, Hfl.
  split; [done|]. split; [|split; [|done]].
  - destruct (b || Circle.collided c), (0 <? Circle.strength c)%Z; simpl; lia.
  - destruct (b || Circle.collided c); simpl in *; [|lra].
    apply Rleb_false in E.
    destruct (negb _); [|lra].
    apply Rmax_lub; lra.
Qed.

Lemma removed_run W H s ops i c :
  get s i = Some c -> get (loop W H s) i = None ->
  get (run (loop W H s) ops) i = None.
Proof.
  intros Hi Hl.
  assert (Hh : circles (loop W H s) !! i = Some None).
  { pose proof (get_Some_lt _ _ _ Hi) as Hlt.
    rewrite <- (length_loop W H) in Hlt.
    destruct (lookup_lt_is_Some_2 _ _ Hlt) as [oc Hoc].
    unfold get in Hl. rewrite Hoc in Hl. by destruct oc. }
  unfold get. by rewrite (hole_run _ ops _ Hh).
Qed.

Lemma run_worn s ops i c c' :
  get s i = Some c -> get (run s ops) i = Some c' -> worn c c'.
Proof.
  revert s c. induction ops as [|o ops IH]; intros s c Hi Hr.
  - simpl in Hr. rewrite Hi in Hr. injection Hr as <-. apply worn_refl.
  - change (run s (o :: ops)) with (run (step s o) ops) in Hr.
    destruct o as [px py rad st v1 v2|W H]; simpl in Hr.
    + eapply IH; [|exact Hr]. by apply get_createNewCircle_old.
    + destruct (get (loop W H s) i) as [c1|] eqn:E1.
      * apply get_loop_Some in E1 as Ht. destruct Ht as (c0 & Hc0 & Ht).
        rewrite Hi in Hc0. injection Hc0 as <-.
        apply tick_slot_worn in Ht.
        eapply worn_trans; [exact Ht|]. eapply IH; [|exact Hr]. done.
      * rewrite (removed_run W H s ops i c Hi E1) in Hr. done.
Qed.

(** A circle that is still in its slot after a run is the same circle (by
    id), has not gained strength, and has not grown. *)
Theorem circle_never_gains (s : t) (ops : list Op) (i : nat) (c c' : Circle.t) :
  get s i = Some c ->
  get (run s ops) i = Some c' ->
  Circle.html_id c' = Circle.html_id c /\
  (Circle.strength c' <= Circle.strength c)%Z /\
  r (Circle.info c') <= r (Circle.info c).
Proof.
  intros Hi Hr. destruct (run_worn s ops i c c' Hi Hr) as (?&?&?&_). done.
Qed.

(** Neither a collision nor a wall changes the speed of a circle along an
    axis: over any run the absolute value of each velocity component
    stays what it was at the spawn; only the sign can change. *)
Theorem speed_is_conserved (s : t) (ops : list Op) (i : nat) (c c' : Circle.t) :
  get s i = Some c ->
  get (run s ops) i = Some c' ->
  Rabs (x (velocity (Circle.info c'))) = Rabs (x (velocity (Circle.info c))) /\
  Rabs (y (velocity (Circle.info c'))) = Rabs (y (velocity (Circle.info c))).
Proof.
  intros Hi Hr. destruct (run_worn s ops i c c' Hi Hr) as (_&_&_&?&?). done.
Qed.

Lemma tick_slot_decaying W H b c :
  Circle.collided c = true -> (Circle.strength c <= 0)%Z ->
  (r (Circle.info c) <= 0 -> tick_slot W H (flag_if b c) = None) /\
  (0 < r (Circle.info c) ->
   exists c', tick_slot W H (flag_if b c) = Some c' /\
     Circle.collided c' = true /\ Circle.strength c' = Circle.strength c /\
     r (Circle.info c') = Rmax (r (Circle.info c) - 1) 0).
Proof.
  intros Hc Hs. unfold tick_slot.
  destruct (flag_if_frame b c) as (_ & Hst & Hinf & Hfl).
  rewrite Hinf, Hfl, Hc, orb_true_r. simpl. split.
  - intros Hr. apply Rleb_true in Hr. by rewrite Hr.
  - intros Hr. assert (E : Rleb (r (Circle.info c)) 0 = false)
      by (apply Rleb_false; lra).
    rewrite E. eexists. split; [reflexivity|].
    destruct (checkForWallCollision_frame W H (flag_if b c))
      as (_ & Hwf & Hws & _ & _ & Hwr).
    rewrite update_collided, update_strength, update_r.
    unfold damaged, decays. rewrite Hwf, Hws, Hwr, Hst, Hinf, Hfl, Hc, orb_true_r.
    assert ((0 <? Circle.strength c)%Z = false) as -> by (apply Z.ltb_ge; lia).
    done.
Qed.

(** Decay cannot be stopped: a flagged circle without strength is gone
    after at most [radius + 1] further ticks (rounded up), whatever is
    spawned meanwhile, wherever the walls are and whether or not it
    touches anything again. *)
Theorem decay_ends_in_removal (s : t) (ops : list Op) (i : nat) (c : Circle.t) :
  get s i = Some c ->
  Circle.collided c = true ->
  (Circle.strength c <= 0)%Z ->
  Rmax (r (Circle.info c)) 0 + 1 <= INR (ticks ops) ->
  get (run s ops) i = None.
Proof.
  revert s c. induction ops as [|o ops IH]; intros s c Hi Hc Hs Hn.
  - simpl in Hn. pose proof (Rmax_r (r (Circle.info c)) 0). lra.
  - change (run s (o :: ops)) with (run (step s o) ops).
    destruct o as [px py rad st v1 v2|W H].
    + eapply IH; [|exact Hc|exact Hs|exact Hn].
      by apply get_createNewCircle_old.
    + simpl step. change (ticks (Tick W H :: ops)) with (S (ticks ops)) in Hn.
      rewrite S_INR in Hn.
      destruct (tick_slot_decaying W H (flagged s i) c Hc Hs) as [Hdead Hlive].
      destruct (Rle_dec (r (Circle.info c)) 0) as [Hr|Hr].
      * apply (removed_run W H s ops i c Hi).
        rewrite get_loop, Hi. simpl. by apply Hdead.
      * destruct Hlive as (c' & Ht & Hc' & Hs' & Hr'); [lra|].
        apply (IH _ c'); try done; try lia.
        -- rewrite get_loop, Hi. done.
        -- rewrite Hr'. rewrite (Rmax_left (r (Circle.info c)) 0) in Hn by lra.
           rewrite (Rmax_left (Rmax _ _) 0) by apply Rmax_r.
           assert (Hpos : 0 < INR (ticks ops)) by lra.
           apply (INR_lt 0) in Hpos. apply (le_INR 1) in Hpos. simpl in Hpos.
           assert (Rmax (r (Circle.info c) - 1) 0 <= INR (ticks ops) - 1)
             by (apply Rmax_lub; lra).
           lra.
Qed.

Lemma flagged_alone s i c : get s i = Some c -> alone s i -> flagged s i = false.
Proof.
  intros Hi Ha. destruct (flagged s i) eqn:E; [|done].
  apply (flagged_overlap s i c Hi) in E as (j & cj & Hne & Hj & _).
  by rewrite (Ha j Hne) in Hj.
Qed.

Lemma alone_loop W H s i : alone s i -> alone (loop W H s) i.
Proof. intros Ha j Hne. by rewrite get_loop, (Ha j Hne). Qed.

(** A circle that is alone in the playground is never flagged, damaged,
    shrunk or removed: after any number of ticks it is still there with
    its strength and its radius. *)
Theorem lone_circle_unharmed (s : t) (ops : list Op) (i : nat) (c : Circle.t) :
  get s i = Some c ->
  Circle.collided c = false ->
  alone s i ->
  spawns ops = 0%nat ->
  exists c', get (run s ops) i = Some c' /\
    Circle.collided c' = false /\
    Circle.strength c' = Circle.strength c /\
    r (Circle.info c') = r (Circle.info c).
Proof.
  revert s c. induction ops as [|o ops IH]; intros s c Hi Hc Ha Hsp.
  - by exists c.
  - destruct o as [px py rad st v1 v2|W H]; [done|].
    change (run s (Tick W H :: ops)) with (run (loop W H s) ops).
    assert (Ht : get (loop W H s) i =
                 Some (Circle.update 1 (Circle.checkForWallCollision W H c)).1).
    { rewrite get_loop, Hi, (flagged_alone s i c Hi Ha). simpl.
      unfold tick_slot. by rewrite Hc. }
    destruct (checkForWallCollision_frame W H c) as (_ & Hwf & Hws & _ & _ & Hwr).
    destruct (IH _ _ Ht) as (c' & Hr & Hc' & Hs' & Hr').
    + rewrite update_collided. unfold decays. by rewrite Hwf, Hc.
    + by apply alone_loop.
    + done.
    + exists c'. split; [done|]. split; [done|].
      rewrite Hs', Hr', update_strength, update_r. unfold damaged, decays.
      by rewrite Hwf, Hc, Hws, Hwr.
Qed.

End Life.

(** ** How the phases compose *)

Section Composition.
Import PlayGround.
Local Open Scope R_scope.

Lemma existsb_pointwise {A} (f g : A -> bool) l :
  (forall a, f a = g a) -> existsb f l = existsb g l.
Proof. intros E. induction l as [|a l IH]; simpl; [done|]. by rewrite E, IH. Qed.

Lemma flagged_same_geo s s' j :
  same_geo s s' -> length (circles s) = length (circles s') ->
  flagged s j = flagged s' j.
Proof.
  intros G Hl. unfold flagged. rewrite Hl.
  apply existsb_pointwise. intros c1. apply existsb_pointwise. intros c2.
  by apply touch_same_geo.
Qed.

Lemma same_geo_checkForBallCollisions s : same_geo (checkForBallCollisions s) s.
Proof.
  intros j. rewrite get_checkForBallCollisions.
  destruct (get s j) as [c|]; simpl; [|done]. by rewrite flag_if_geo.
Qed.

(** The ball-collision pass is idempotent: running it a second time on
    its own result changes nothing, since the flags it sets do not enter
    its test. *)
Theorem checkForBallCollisions_idempotent (s : t) :
  checkForBallCollisions (checkForBallCollisions s) = checkForBallCollisions s.
Proof.
  rewrite (checkForBallCollisions_closed (checkForBallCollisions s)).
  destruct (same_frame_checkForBallCollisions s) as (Hc & He & Hl).
  rewrite Hc, He.
  pose proof (checkForBallCollisions_closed s) as Hsd.
  assert (Hcs : circles (checkForBallCollisions s) =
                imap (fun j oc => flag_if (flagged s j) <$> oc) (circles s))
    by (by rewrite Hsd).
  etransitivity; [|symmetry; exact Hsd]. f_equal.
  apply list_eq. intros j. rewrite list_lookup_imap.
  rewrite (flagged_same_geo _ s j (same_geo_checkForBallCollisions s) Hl).
  rewrite Hcs, list_lookup_imap.
  destruct (circles s !! j) as [[c|]|]; simpl; try done.
  by rewrite flag_if_flag_if, orb_diag.
Qed.

Lemma handleDeletions_closed s :
  handleDeletions s =
  mk (counter s) (slot_after reap_slot <$> circles s)
     (effects s ++ concat (slot_effects reap_slot <$> circles s)).
Proof. by rewrite handleDeletions_visit, for_in_visit. Qed.

Lemma checkForWallCollisions_closed W H s :
  checkForWallCollisions W H s =
  mk (counter s) (slot_after (wall_slot W H) <$> circles s) (effects s).
Proof.
  rewrite checkForWallCollisions_visit, for_in_visit. f_equal.
  assert (E : forall l, concat (slot_effects (wall_slot W H) <$> l) = []).
  { induction l as [|[c|] l IH]; simpl; done. }
  by rewrite E, app_nil_r.
Qed.

Lemma reap_slot_wall W H c :
  reap_slot (Circle.checkForWallCollision W H c) =
  ((Circle.checkForWallCollision W H <$> (reap_slot c).1), (reap_slot c).2).
Proof.
  unfold reap_slot, Circle.remove.
  destruct (checkForWallCollision_frame W H c) as (-> & -> & _ & _ & _ & ->).
  by destruct (_ && _).
Qed.

(** The reap phase is idempotent, and it commutes with the wall pass:
    which of the two runs first makes no difference to the state or to
    the effects. *)
Theorem handleDeletions_composes (W H : R) (s : t) :
  handleDeletions (handleDeletions s) = handleDeletions s /\
  checkForWallCollisions W H (handleDeletions s) =
  handleDeletions (checkForWallCollisions W H s).
Proof.
  split.
  - rewrite (handleDeletions_closed (handleDeletions s)).
    rewrite (handleDeletions_closed s). simpl. f_equal.
    + rewrite <- list_fmap_compose. apply list_fmap_ext.
      intros _ [c|] _; simpl; [|done]. unfold reap_slot.
      destruct (_ && _) eqn:E; simpl; [done|]. by rewrite E.
    + rewrite <- list_fmap_compose.
      assert (E : concat (slot_effects reap_slot ∘ slot_after reap_slot
                          <$> circles s) = []).
      { induction (circles s) as [|[c|] l IH]; simpl; try done.
        unfold reap_slot at 2. destruct (_ && _) eqn:E; simpl; [done|].
        unfold reap_slot. by rewrite E. }
      by rewrite E, app_nil_r.
  - rewrite (checkForWallCollisions_closed W H (handleDeletions s)).
    rewrite (handleDeletions_closed (checkForWallCollisions W H s)).
    rewrite handleDeletions_closed, checkForWallCollisions_closed. simpl.
    f_equal.
    + rewrite <- !list_fmap_compose. apply list_fmap_ext.
      intros _ [c|] _; simpl; [|done]. rewrite reap_slot_wall. simpl.
      by destruct (reap_slot c).1.
    + f_equal. rewrite <- list_fmap_compose. f_equal. apply list_fmap_ext.
      intros _ [c|] _; simpl; [|done]. by rewrite reap_slot_wall.
Qed.

(** After a tick a surviving circle has moved by the velocity it now has;
    a circle that reached beyond the right (bottom) edge has not moved
    further right (down), and one beyond the left (top) edge only, not
    further left (up). *)
Theorem tick_moves_back_inside (W H : R) (s : t) (i : nat) (c c' : Circle.t) :
  get s i = Some c ->
  get (loop W H s) i = Some c' ->
  cx (Circle.info c') = cx (Circle.info c) + x (velocity (Circle.info c')) /\
  cy (Circle.info c') = cy (Circle.info c) + y (velocity (Circle.info c')) /\
  (W < cx (Circle.info c) + r (Circle.info c) ->
   cx (Circle.info c') <= cx (Circle.info c)) /\
  (~ W < cx (Circle.info c) + r (Circle.info c) ->
   cx (Circle.info c) - r (Circle.info c) < 0 ->
   cx (Circle.info c) <= cx (Circle.info c')) /\
  (H < cy (Circle.info c) + r (Circle.info c) ->
   cy (Circle.info c') <= cy (Circle.info c)) /\
  (~ H < cy (Circle.info c) + r (Circle.info c) ->
   cy (Circle.info c) - r (Circle.info c) < 0 ->
   cy (Circle.info c) <= cy (Circle.info c')).
Proof.
  intros Hi Hl. rewrite get_loop, Hi in Hl. simpl in Hl.
  unfold tick_slot in Hl. destruct (_ && _); [done|]. injection Hl as <-.
  set (cf := flag_if (flagged s i) c).
  assert (Hinf : Circle.info cf = Circle.info c) by apply flag_if_frame.
  destruct (checkForWallCollision_frame W H cf) as (_ & _ & _ & Hx & Hy & _).
  rewrite update_cx, update_cy, update_velocity, Hx, Hy.
  rewrite checkForWallCollision_x, checkForWallCollision_y, Hinf.
  pose proof (Rabs_pos (x (velocity (Circle.info c)))).
  pose proof (Rabs_pos (y (velocity (Circle.info c)))).
  repeat match goal with
         | |- context [Rltb ?a ?b] =>
             let E := fresh "E" in destruct (Rltb a b) eqn:E
         end;
    repeat match goal with
           | E : Rltb _ _ = true |- _ => apply Rltb_true in E
           | E : Rltb _ _ = false |- _ => apply Rltb_false in E
           end;
    repeat split; intros; lra.
Qed.

End Composition.

(** ** The sounds of a tick *)

Section Sounds.
Import PlayGround.
Local Open Scope R_scope.

Lemma tally_app {A} (f : A -> bool) l1 l2 :
  tally f (l1 ++ l2) = (tally f l1 + tally f l2)%nat.
Proof. induction l1 as [|a l1 IH]; simpl; [done|]. rewrite IH. lia. Qed.

Lemma tally_concat_imap {A} (p : Effect -> bool)
    (g : nat -> A -> list Effect) (h : nat -> A -> bool) (l : list A) :
  (forall j a, tally p (g j a) = if h j a then 1%nat else 0%nat) ->
  tally p (concat (imap g l)) = tally (fun b : bool => b) (imap h l).
Proof.
  revert g h. induction l as [|a l IH]; intros g h Hgh; [done|].
  rewrite !imap_cons. simpl. rewrite tally_app, Hgh.
  rewrite (IH (g ∘ S) (h ∘ S)); [done|]. intros j a'. apply Hgh.
Qed.

Lemma zip_with_imap {A B C} (f : A -> B -> C) (g : nat -> A -> B) (l : list A) :
  zip_with f l (imap g l) = imap (fun j a => f a (g j a)) l.
Proof.
  revert g. induction l as [|a l IH]; intros g; [done|].
  rewrite !imap_cons. simpl. by rewrite IH.
Qed.

(** One slot over one tick, once its flag of this tick is [b]. *)
Lemma slot_sounds W H b (oc : option Circle.t) :
  let cf := flag_if b <$> oc in
  let e1 := slot_effects reap_slot cf in
  let cw := slot_after (wall_slot W H) (slot_after reap_slot cf) in
  let e2 := slot_effects update_slot cw in
  let fin := slot_after update_slot cw in
  fin = cf ≫= tick_slot W H /\
  tally (is_play "trash") (e1 ++ e2) = (if removed oc fin then 1 else 0)%nat /\
  tally is_removeChild (e1 ++ e2) = (if removed oc fin then 1 else 0)%nat /\
  tally (is_play "zee-ow") (e1 ++ e2) = (if weakened oc fin then 1 else 0)%nat /\
  tally is_appendChild (e1 ++ e2) = 0%nat.
Proof.
  destruct oc as [c|]; simpl; [|done].
  unfold reap_slot, tick_slot.
  destruct (Circle.collided (flag_if b c) && Rleb _ 0) eqn:E; simpl; [done|].
  rewrite update_effects, update_strength.
  destruct (checkForWallCollision_frame W H (flag_if b c))
    as (_ & Hwf & Hws & _).
  destruct (flag_if_frame b c) as (_ & Hst & _).
  unfold damaged. rewrite Hwf, Hws, Hst.
  destruct (Circle.collided (flag_if b c) && (0 <? Circle.strength c)%Z);
    simpl; repeat split; try done.
  - assert ((Circle.strength c - 1 <? Circle.strength c)%Z = true) as ->
      by (apply Z.ltb_lt; lia). done.
  - by rewrite Z.ltb_irrefl.
Qed.

Lemma tally_two_phases {A} (p : Effect -> bool)
    (g1 g2 : nat -> A -> list Effect) (h : nat -> A -> bool) (l : list A) :
  (forall j a, tally p (g1 j a ++ g2 j a) = if h j a then 1%nat else 0%nat) ->
  (tally p (concat (imap g1 l)) + tally p (concat (imap g2 l)))%nat =
  tally (fun b : bool => b) (imap h l).
Proof.
  revert g1 g2 h. induction l as [|a l IH]; intros g1 g2 h Hp; [done|].
  rewrite !imap_cons. simpl. rewrite !tally_app.
  pose proof (Hp 0%nat a) as Hp0. rewrite tally_app in Hp0.
  rewrite <- (IH (g1 ∘ S) (g2 ∘ S) (h ∘ S)); [|intros j a'; apply Hp].
  lia.
Qed.

Lemma tally_imap_false {A} (l : list A) :
  tally (fun b : bool => b) (imap (fun _ _ => false) l) = 0%nat.
Proof.
  induction l as [|a l IH]; [done|]. rewrite imap_cons. simpl. exact IH.
Qed.

(** The effects of a tick are appended to the log, and among them the
    trash sound and [removeChild] occur once for every circle the tick
    removes, the zee-ow sound once for every circle that is still there
    with less strength, and [appendChild] not at all. *)
Theorem tick_sounds (W H : R) (s : t) :
  exists es,
    effects (loop W H s) = effects s ++ es /\
    tally (is_play "trash") es =
      tally (fun b : bool => b)
            (zip_with removed (circles s) (circles (loop W H s))) /\
    tally is_removeChild es =
      tally (fun b : bool => b)
            (zip_with removed (circles s) (circles (loop W H s))) /\
    tally (is_play "zee-ow") es =
      tally (fun b : bool => b)
            (zip_with weakened (circles s) (circles (loop W H s))) /\
    tally is_appendChild es = 0%nat.
Proof.
  eexists. split; [by rewrite loop_phases|].
  rewrite circles_loop.
  rewrite checkForBallCollisions_closed. cbn [circles].
  rewrite !fmap_imap, !zip_with_imap, !tally_app.
  repeat split.
  - apply tally_two_phases. intros j oc. unfold compose.
    destruct (slot_sounds W H (flagged s j) oc) as (Hf & Ht & _).
    cbv zeta in Hf, Ht. by rewrite <- Hf.
  - apply tally_two_phases. intros j oc. unfold compose.
    destruct (slot_sounds W H (flagged s j) oc) as (Hf & _ & Ht & _).
    cbv zeta in Hf, Ht. by rewrite <- Hf.
  - apply tally_two_phases. intros j oc. unfold compose.
    destruct (slot_sounds W H (flagged s j) oc) as (Hf & _ & _ & Ht & _).
    cbv zeta in Hf, Ht. by rewrite <- Hf.
  - rewrite <- (tally_imap_false (circles s)).
    apply tally_two_phases. intros j oc. unfold compose.
    by destruct (slot_sounds W H (flagged s j) oc) as (_ & _ & _ & _ & Ht).
Qed.

End Sounds.

(** ** The speed given at spawn *)

Section SpawnSpeed.
Import PlayGround.
Local Open Scope R_scope.

(** Larger circles are slower: the velocity components of a new circle of
    positive radius are at most [MAX_VELOCITY] divided by the square root
    of the radius in magnitude. *)
Theorem spawn_speed_bound (px py rad : R) (st : Z) (id : nat) (u1 u2 : R) :
  0 < rad -> 0 <= u1 < 1 -> 0 <= u2 < 1 ->
  let c := (Circle.new px py rad st id u1 u2).1 in
  Rabs (x (velocity (Circle.info c))) <= MAX_VELOCITY / sqrt rad /\
  Rabs (y (velocity (Circle.info c))) <= MAX_VELOCITY / sqrt rad.
Proof.
  intros Hrad Hu1 Hu2. cbv zeta. rewrite new_velocity. simpl.
  assert (Hs : 0 < sqrt rad) by (by apply sqrt_lt_R0).
  assert (Hi : 0 < / sqrt rad) by (by apply Rinv_0_lt_compat).
  assert (G : forall u, 0 <= u < 1 ->
            Rabs (Circle.randomNumberBetween (- MAX_VELOCITY) MAX_VELOCITY u
                  / sqrt rad) <= MAX_VELOCITY / sqrt rad).
  { intros u Hu. apply randomNumberBetween_range in Hu.
    unfold Rdiv. rewrite Rabs_mult, Rabs_inv, (Rabs_right (sqrt rad)) by lra.
    apply Rmult_le_compat_r; [lra|]. apply Rabs_le. lra. }
  split; by apply G.
Qed.

End SpawnSpeed.

(** ** Instances of the further properties *)

Section MoreInstances.
Import PlayGround.
Local Open Scope R_scope.

Lemma spawn_speed_bound_witness :
  Rabs (x (velocity (Circle.info (Circle.new 100 100 4 1 0 (1 / 4) (3 / 4)).1)))
  <= MAX_VELOCITY / sqrt 4.
Proof.
  destruct (spawn_speed_bound 100 100 4 1 0 (1 / 4) (3 / 4)) as [Hx _];
    [lra|lra|lra|exact Hx].
Defined.

Lemma press_spawns_circle_witness :
  exists p' c,
    Page.onmouseup 100 shift_click (1 / 2) (1 / 2) (Page.onmousedown 0 fresh_page)
    = p' /\
    circles (Page.playground p') =
    circles (Page.playground fresh_page) ++ [Some c] /\
    0 < r (Circle.info c).
Proof.
  destruct (press_spawns_circle 0 100 shift_click (1 / 2) (1 / 2) fresh_page)
    as (p' & c & H1 & H2 & _ & _ & _ & _ & _ & _ & H9 & _); [lra|].
  by exists p', c.
Defined.

Lemma get_two_bodies_0 : get two_bodies 0 = Some (at_rest 0 false 1 500 500 10).
Proof. exact (get_of_circles _ _ 0 circles_two_bodies). Qed.

Lemma get_two_ticks_0 :
  get (run two_bodies [Tick 1000 1000; Tick 1000 1000]) 0 =
  Some (at_rest 0 true 0 500 500 9).
Proof. exact (get_of_circles _ _ 0 circles_tick2). Qed.

Lemma circle_never_gains_witness :
  Circle.html_id (at_rest 0 true 0 500 500 9) =
    Circle.html_id (at_rest 0 false 1 500 500 10) /\
  (Circle.strength (at_rest 0 true 0 500 500 9)
   <= Circle.strength (at_rest 0 false 1 500 500 10))%Z /\
  r (Circle.info (at_rest 0 true 0 500 500 9))
  <= r (Circle.info (at_rest 0 false 1 500 500 10)).
Proof.
  apply (circle_never_gains two_bodies [Tick 1000 1000; Tick 1000 1000] 0).
  - exact get_two_bodies_0.
  - exact get_two_ticks_0.
Defined.

Lemma alone_past_right_edge : alone past_right_edge 0.
Proof. intros [|j] Hj; [done|]. unfold get. by destruct j. Qed.

Lemma past_right_edge_tick :
  exists c', get (run past_right_edge [Tick 100 100]) 0 = Some c'.
Proof.
  change (run past_right_edge [Tick 100 100]) with (loop 100 100 past_right_edge).
  assert (H0 : get past_right_edge 0 =
               Some (Circle.mk 0 false 1 (mkInfo 95 50 10 (mkVelocity 2 0))))
    by reflexivity.
  rewrite get_loop, H0, (flagged_alone _ 0 _ H0 alone_past_right_edge).
  simpl. unfold tick_slot. simpl. by eexists.
Qed.

Lemma speed_is_conserved_witness :
  exists c',
    get (run past_right_edge [Tick 100 100]) 0 = Some c' /\
    Rabs (x (velocity (Circle.info c'))) = Rabs 2.
Proof.
  destruct past_right_edge_tick as (c' & Hc').
  exists c'. split; [exact Hc'|].
  apply (speed_is_conserved past_right_edge [Tick 100 100] 0
           (Circle.mk 0 false 1 (mkInfo 95 50 10 (mkVelocity 2 0))) c').
  - reflexivity.
  - exact Hc'.
Defined.

Lemma decay_ends_in_removal_witness :
  get (run after_two_ticks [Tick 1000 1000]) 1 = None.
Proof.
  apply (decay_ends_in_removal after_two_ticks [Tick 1000 1000] 1
           (at_rest 1 true 0 510 500 0)).
  - exact (get_of_circles _ _ 1 circles_after_two_ticks).
  - reflexivity.
  - simpl. lia.
  - simpl. rewrite Rmax_left; lra.
Defined.

Lemma alone_new W H u1 u2 : alone (new W H u1 u2) 0.
Proof. intros [|j] Hj; [done|]. unfold new, createNewCircle, get. by destruct j. Qed.

Lemma lone_circle_unharmed_witness :
  exists c',
    get (run (new 1000 1000 (1 / 2) (1 / 2))
             [Tick 1000 1000; Tick 1000 1000; Tick 1000 1000]) 0 = Some c' /\
    Circle.collided c' = false /\
    Circle.strength c' = INITIAL_STRENGTH /\
    r (Circle.info c') = INITIAL_RADIUS.
Proof.
  apply (lone_circle_unharmed (new 1000 1000 (1 / 2) (1 / 2))
           [Tick 1000 1000; Tick 1000 1000; Tick 1000 1000] 0
           (Circle.new (1000 / 2) (1000 / 2) INITIAL_RADIUS INITIAL_STRENGTH 0
                       (1 / 2) (1 / 2)).1).
  - reflexivity.
  - reflexivity.
  - apply alone_new.
  - reflexivity.
Defined.

Lemma tick_moves_back_inside_witness :
  exists c',
    get (loop 100 100 past_right_edge) 0 = Some c' /\
    cx (Circle.info c') <= 95.
Proof.
  destruct past_right_edge_tick as (c' & Hc').
  exists c'. split; [exact Hc'|].
  apply (tick_moves_back_inside 100 100 past_right_edge 0
           (Circle.mk 0 false 1 (mkInfo 95 50 10 (mkVelocity 2 0))) c').
  - reflexivity.
  - exact Hc'.
  - simpl. lra.
Defined.

End MoreInstances.

(** ** The colour shows the strength *)

Section Colour.

Example fill_style_default : fill_style INITIAL_STRENGTH = "fill: #011"%string.
Proof. reflexivity. Qed.

Example fill_style_max : fill_style 15 = "fill: #0ff"%string.
Proof. reflexivity. Qed.

Example toString16_255 : toString16 255 = "ff"%string.
Proof. reflexivity. Qed.

Lemma hex_value_digit (n : N) : (n < 16)%N -> hex_value (hex_digit n) = n.
Proof.
  intros Hn. rewrite <- (N2Nat.id n).
  assert (Hk : (N.to_nat n < 16)%nat) by lia.
  generalize dependent (N.to_nat n). intros k Hk.
  do 16 (destruct k as [|k]; [reflexivity|]). lia.
Qed.

Lemma fill_style_digit (s : Z) :
  (0 <= s <= 15)%Z ->
  fill_style s =
  String.append "fill: #0"
    (String (hex_digit (Z.to_N s)) (String (hex_digit (Z.to_N s)) EmptyString)).
Proof.
  intros Hs. rewrite <- (Z2Nat.id s) by lia.
  assert (Hk : (Z.to_nat s < 16)%nat) by lia.
  generalize dependent (Z.to_nat s). intros k Hk.
  do 16 (destruct k as [|k]; [reflexivity|]). lia.
Qed.

(** For the strengths a click can give (0 to 15) the style is a colour of
    three hexadecimal digits, [#0dd] with [d] the digit of the strength,
    and two different strengths give two different colours. *)
Theorem fill_style_of_click (evt : MouseEvent.t) :
  let s := getClickType evt in
  fill_style s =
    String.append "fill: #0"
      (String (hex_digit (Z.to_N s)) (String (hex_digit (Z.to_N s)) EmptyString)) /\
  String.length (fill_style s) = 10%nat /\
  forall evt', fill_style (getClickType evt') = fill_style s ->
               getClickType evt' = s.
Proof.
  cbv zeta. pose proof (getClickType_range evt) as Hr.
  split; [by apply fill_style_digit|]. split.
  - rewrite fill_style_digit by done. simpl. reflexivity.
  - intros evt' E. pose proof (getClickType_range evt') as Hr'.
    rewrite !fill_style_digit in E by done. simpl in E.
    injection E as E _. apply (f_equal hex_value) in E.
    rewrite !hex_value_digit in E by lia. lia.
Qed.

End Colour.
